(** * ai-jsx [core/render3.ts]: a shallow embedding and its verified properties

    The development follows the layout of [render3.ts]:

    - [Js]        the JavaScript values the module manipulates (property
                  keys, symbols, records, the [Node] union, render elements)
                  and the effect monad that threads object allocation;
    - [Elements]  [createElement] and the invocation of the closure it
                  returns;
    - [Logging]   [LogImplementation], [logException], the console sink;
    - [Contexts]  [createContext] / [createRenderContext] and the context
                  operations of the [RenderContext] interface;
    - [Replace]   [replace] and [replaceSubtree];
    - [Traverse]  [traverse];
    - [Fork]      the generators of [fork];
    - [Abort]     the pull loop of an asynchronous leaf under an abort signal.

    Part I holds the definitions, Part II the properties, module by module.

    The rest of the repository follows, each file in a module of its own:
    [Lineage] and [Logger] complete [traverse] and [LogImplementation.bind];
    [Cli] is the [deploy] command of packages/fixie/src/main.ts, [Sidekick]
    is batteries/sidekick/platform/sidekick.tsx, [Inspector] the frame index
    of inspector/console.tsx, [ReactBridge] is react/index.ts, [FixieHook]
    the token handler of the [useFixie] hook, [InlineScope] the [Scope]
    component and [DebugStep] the [shouldStop] predicate of [DebugTree].
    [Invocation] runs the closure of [createElement] once more, this time
    with [ctx.render] and the [RenderElementImpl] constructor as JavaScript
    calls that may throw.

    Asynchronous iterables are represented by the finite list of items they
    yield when drained; a generator body is run when the element that owns it
    is constructed.  Object identity (the [===] of JavaScript on objects) is
    represented by an object identifier drawn from an allocation counter. *)

From Stdlib Require Import Floats.
From stdpp Require Import gmap strings list fin_maps countable.

Local Set Warnings "-register-all".

(* ===================================================================== *)
(** * Part I: definitions                                                 *)
(* ===================================================================== *)

Module Js.

(** A [Symbol()] is known by its identity only. *)
Definition JsSymbol := positive.

(** Keys of a [Record<string | symbol, any>]. *)
Inductive PropertyKey :=
| KString (s : string)
| KSymbol (y : JsSymbol).

#[global] Instance PropertyKey_eq_dec : EqDecision PropertyKey.
Proof. solve_decision. Defined.

#[global] Instance PropertyKey_countable : Countable PropertyKey.
Proof.
  refine (inj_countable'
            (fun k => match k with KString s => inl s | KSymbol y => inr y end)
            (fun x => match x with inl s => KString s | inr y => KSymbol y end) _).
  by intros [].
Defined.

(** The [string | symbol] half of a tag; also the [type] of a render
    element. *)
Inductive Intrinsic :=
| IString (s : string)
| ISymbol (y : JsSymbol).

#[global] Instance Intrinsic_eq_dec : EqDecision Intrinsic.
Proof. solve_decision. Defined.

(** A component is a function object; it is represented by a reference
    into the table of component bodies ([Elements.Runtime]). *)
Definition ComponentRef := nat.

(** [tag: Component<P> | string | symbol]; [typeof tag === 'function']
    selects [TComponent]. *)
Inductive Tag :=
| TComponent (c : ComponentRef)
| TIntrinsic (t : Intrinsic).

Definition AbortSignal := nat.

(** The data carried by a [ComponentContext]: the identity of the context
    object and its optional [abortSignal].  Its methods are collected in
    [Elements.Runtime] and [Contexts]. *)
Record ComponentContext := {
  ctx_ref : nat;
  ctx_abortSignal : option AbortSignal;
}.

(** [Node = Literal | RenderNode | Element<any> | Node[]] with
    [Literal = string | number | null | undefined | boolean] and
    [RenderNode = RenderElement | string].

    An [Element] is the closure [fn] built by [createElement]: it captures
    [tag], [propsToPass] and [children]; [fn.tag] and [fn.props] expose the
    first two.  A [RenderElement] is an instance of [RenderElementImpl],
    built from the five constructor arguments; [kids] is the sequence its
    [asyncChildNodes] yields.  [Any] is the part of [any] stored in props
    and attributes by this module. *)
Inductive Node :=
| NUndefined
| NNull
| NBoolean (b : bool)
| NNumber (x : float)
| NString (s : string)
| NRender (r : RenderElement)
| NElement (e : Element)
| NArray (l : list Node)
with Element :=
| ElementFn (tag : Tag) (propsToPass : gmap PropertyKey Any) (children : list Node)
with RenderElement :=
| RenderElementImpl (oid : nat) (type : Intrinsic)
    (attributes : gmap PropertyKey Any)
    (renderContext : ComponentContext) (abortSignal : option AbortSignal)
    (kids : list RenderNode)
with RenderNode :=
| RNString (s : string)
| RNElement (r : RenderElement)
with Any :=
| AnyNode (n : Node)
| AnySymbol (y : JsSymbol).

Abbreviation Props := (gmap PropertyKey Any).

Definition element_tag (e : Element) : Tag :=
  match e with ElementFn tag _ _ => tag end.
Definition element_props (e : Element) : Props :=
  match e with ElementFn _ props _ => props end.

Definition oid (r : RenderElement) : nat :=
  match r with RenderElementImpl o _ _ _ _ _ => o end.
Definition type (r : RenderElement) : Intrinsic :=
  match r with RenderElementImpl _ t _ _ _ _ => t end.
Definition attributes (r : RenderElement) : Props :=
  match r with RenderElementImpl _ _ a _ _ _ => a end.
Definition renderContext (r : RenderElement) : ComponentContext :=
  match r with RenderElementImpl _ _ _ c _ _ => c end.
Definition abortSignal (r : RenderElement) : option AbortSignal :=
  match r with RenderElementImpl _ _ _ _ a _ => a end.
Definition asyncChildNodes (r : RenderElement) : list RenderNode :=
  match r with RenderElementImpl _ _ _ _ _ kids => kids end.

(** [Renderable = Node | PromiseLike<Node> | AsyncIterable<Node>]: a
    promise by its settlement, an iterable by its items. *)
Record Error := { err_name : string; message : string }.

Inductive Completion (A : Type) :=
| Normal (a : A)
| Throw (e : Error).
Arguments Normal {A} a.
Arguments Throw {A} e.

Inductive Renderable :=
| RenderableNode (n : Node)
| RenderablePromise (settled : Completion Node)
| RenderableAsync (items : list Node).

(** ** Operators *)

(** [{ ...target, ...source }]: the keys of [source] win. *)
Definition spread (target source : Props) : Props := source ∪ target.

(** [key in obj] *)
Definition js_in (key : PropertyKey) (obj : Props) : bool :=
  bool_decide (is_Some (obj !! key)).

(** [obj[key]] *)
Definition js_get (obj : Props) (key : PropertyKey) : Any :=
  default (AnyNode NUndefined) (obj !! key).

(** [ToBoolean]: [undefined], [null], [false], [0], [-0], [NaN] and the
    empty string are falsy. *)
Definition truthy (v : Any) : bool :=
  match v with
  | AnySymbol _ => true
  | AnyNode NUndefined | AnyNode NNull => false
  | AnyNode (NBoolean b) => b
  | AnyNode (NNumber x) => negb (PrimFloat.eqb x 0%float || PrimFloat.is_nan x)
  | AnyNode (NString s) => negb (bool_decide (s = EmptyString))
  | AnyNode _ => true
  end.

(** [typeof node === 'object'] on a [RenderNode]. *)
Definition is_object (node : RenderNode) : bool :=
  match node with RNElement _ => true | RNString _ => false end.

(** [node === head], for a render node against a render element: a string
    is never identical to an object, two objects are identical when they
    are the same allocation. *)
Definition strict_eq (node : RenderNode) (head : RenderElement) : bool :=
  match node with
  | RNElement e => bool_decide (oid e = oid head)
  | RNString _ => false
  end.

(** [Array.prototype.flat(Infinity)] *)
Fixpoint flat_node (n : Node) : list Node :=
  match n with
  | NArray l => List.flat_map flat_node l
  | _ => [n]
  end.

Definition flat_infinity (l : list Node) : list Node :=
  List.flat_map flat_node l.

Definition is_array (n : Node) : bool :=
  match n with NArray _ => true | _ => false end.

(** ** Effects: allocation of objects

    The store is the next free object identifier.  [Eff A] is a
    computation that may allocate. *)
Definition Store := nat.
Definition Eff (A : Type) : Type := Store → A * Store.

Definition ret {A} (a : A) : Eff A := fun s => (a, s).
Definition bind {A B} (m : Eff A) (k : A → Eff B) : Eff B :=
  fun s => let '(a, s1) := m s in k a s1.
Definition fresh_oid : Eff nat := fun s => (s, S s).

Notation "'let*' x := m 'in' k" := (bind m (fun x => k))
  (at level 10, x name, m at level 100, k at level 200, only parsing).

(** [for]/[map] over a list with effects, left to right. *)
Fixpoint mapM {A B} (f : A → Eff B) (l : list A) : Eff (list B) :=
  match l with
  | [] => ret []
  | x :: l' => let* y := f x in let* ys := mapM f l' in ret (y :: ys)
  end.

(** Modelled from the spec: the constructor of [RenderElementImpl]
    (render-impl.js), from "Render Evaluator (live element) - created per
    (Node, Context) evaluation; owns: its resolved type, its attributes,
    ... an asynchronous sequence of child-arrival events ... and a
    reference to the context it was rendered under".  [new
    RenderElementImpl(type, attributes, context, abortSignal, children)]
    allocates the object and records its arguments; [children] is the
    (not yet started) producer of its child sequence. *)
Definition new_RenderElementImpl (type : Intrinsic) (attributes : Props)
    (context : ComponentContext) (abortSignal : option AbortSignal)
    (children : Eff (list RenderNode)) : Eff RenderElement :=
  let* o := fresh_oid in
  let* kids := children in
  ret (RenderElementImpl o type attributes context abortSignal kids).

End Js.

Module Elements.
Import Js.

(** What [createElement] calls but does not define, taken as parameters:
    [ctx.render] (declared by the [RenderContext] interface, implemented by
    [RenderContextImpl] in render-impl.js) and the bodies of the components.
    As the interface declares it, [render] returns a [RenderElement]; the
    errors of the components it evaluates travel in the element ("a
    component invocation that throws produces an error frame rooted at that
    evaluator ... propagation is by the same asynchronous-completion channel
    used for values").  A component body called directly may throw. *)
Class Runtime := {
  render : ComponentContext → Renderable → option AbortSignal → Eff RenderElement;
  component : ComponentRef → Props → ComponentContext → Eff (Completion Renderable);
}.

Definition children_key : PropertyKey := KString "children".

(** [{ ...(props ?? {}),
       ...(children.length === 0 ? {}
           : { children: children.length === 1 ? children[0] : children }) }] *)
Definition propsToPass (props : option Props) (children : list Node) : Props :=
  spread (spread ∅ (default ∅ props))
    (match children with
     | [] => ∅
     | [c] => {[ children_key := AnyNode c ]}
     | _ => {[ children_key := AnyNode (NArray children) ]}
     end).

Definition createElement (tag : Tag) (props : option Props)
    (children : list Node) : Element :=
  ElementFn tag (propsToPass props children) children.

(** The body of [fn], i.e. the call [element(ctx)]. *)
Definition invoke `{Runtime} (e : Element) (ctx : ComponentContext)
    : Eff (Completion Renderable) :=
  match e with
  | ElementFn tag propsToPass children =>
      match tag with
      | TComponent c => component c propsToPass ctx
      | TIntrinsic t =>
          let* rendered := mapM (fun c => render ctx (RenderableNode c) None)
                                (flat_infinity children) in
          let* r := new_RenderElementImpl t propsToPass ctx (ctx_abortSignal ctx)
                      (ret (RNElement <$> rendered)) in
          ret (Normal (RenderableNode (NRender r)))
      end
  end.

End Elements.

Module Logging.
Import Js.

(** [LogLevel = 'fatal' | 'error' | 'warn' | 'info' | 'debug' | 'trace'] *)
Inductive LogLevel :=
| Level_fatal
| Level_error
| Level_warn
| Level_info
| Level_debug
| Level_trace.

#[global] Instance LogLevel_eq_dec : EqDecision LogLevel.
Proof. solve_decision. Defined.

(** [metadataOrMessage: object | string]; the objects this module passes
    are [Error]s. *)
Inductive LogPayload :=
| PayloadError (e : Error)
| PayloadObject (o : Props)
| PayloadString (s : string).

(** The abstract class: an implementation supplies [log], which acts on
    its sink. *)
Class LogImplementation (Sink : Type) := {
  log : LogLevel → option Tag → option Props → string →
        LogPayload → option string → Sink → Sink;
}.

Definition logException {Sink} `{LogImplementation Sink}
    (component : option Tag) (props : option Props) (renderId : string)
    (error : Error) (bubbling : bool) : Sink → Sink :=
  if bubbling then
    log Level_warn component props renderId (PayloadError error) (Some (message error))
  else
    log Level_error component props renderId (PayloadError error) (Some (message error)).

(** One call of [log], as a sink that records every emission sees it. *)
Record LogCall := {
  call_level : LogLevel;
  call_component : option Tag;
  call_props : option Props;
  call_renderId : string;
  call_metadataOrMessage : LogPayload;
  call_message : option string;
}.

Definition recording : LogImplementation (list LogCall) :=
  {| log level component props renderId metadataOrMessage message sink :=
       sink ++ [ {| call_level := level; call_component := component;
                    call_props := props; call_renderId := renderId;
                    call_metadataOrMessage := metadataOrMessage;
                    call_message := message |} ] |}.

(** [ConsoleLogImplementation]: one call of a [console] method. *)
Record ConsoleCall := {
  console_method : LogLevel;
  console_first : LogPayload;
  console_component : option Tag;
  console_props : option Props;
  console_renderId : string;
  console_metadata : option LogPayload;
}.

(** [console[level === 'fatal' ? 'error' : level](message ?? metadataOrMessage,
      { component, props, renderId,
        metadata: message ? metadataOrMessage : undefined })] *)
Definition ConsoleLogImplementation : LogImplementation (list ConsoleCall) :=
  {| log level component props renderId metadataOrMessage message sink :=
       sink ++ [ {| console_method :=
                      if bool_decide (level = Level_fatal) then Level_error else level;
                    console_first :=
                      match message with
                      | Some m => PayloadString m
                      | None => metadataOrMessage
                      end;
                    console_component := component;
                    console_props := props;
                    console_renderId := renderId;
                    console_metadata :=
                      match message with
                      | Some m => if truthy (AnyNode (NString m))
                                  then Some metadataOrMessage else None
                      | None => None
                      end |} ] |}.

End Logging.

Module Contexts.
Import Js.

(** [Context<T>]: [default] and [symbol]; [Provider] is the function
    [context_Provider] below applied to the record. *)
Record Context := {
  ctx_default : Any;
  ctx_symbol : JsSymbol;
}.

(** [createContext(defaultValue)]: the [Symbol(...)] call draws a symbol
    never issued before from the supply. *)
Definition createContext (defaultValue : Any) (supply : JsSymbol)
    : Context * JsSymbol :=
  ({| ctx_default := defaultValue; ctx_symbol := supply |}, Pos.succ supply).

(** Modelled from the spec: the class [RenderContextImpl] (render-impl.js),
    of which render3.ts shows only [new RenderContextImpl({})].  From
    "Render Context - immutable record of: a mapping from context-key to
    bound value ... [setContext(key, value)] returns a new context with one
    binding overridden; it never affects the context object it was called
    on.  [getContext(key)] resolves the nearest enclosing binding for that
    key or a key-defined default."  Context objects live in a heap, indexed
    by their reference; each holds its record of bindings. *)
Abbreviation Bindings := (gmap JsSymbol Any).
Abbreviation ContextHeap := (gmap nat (gmap JsSymbol Any)).

Definition new_RenderContextImpl (bindings : Bindings) (h : ContextHeap)
    : nat * ContextHeap :=
  let ref := fresh (dom h) in (ref, <[ref := bindings]> h).

(** [createRenderContext()] = [new RenderContextImpl({})] *)
Definition createRenderContext (h : ContextHeap) : nat * ContextHeap :=
  new_RenderContextImpl ∅ h.

Definition bindings_of (h : ContextHeap) (rc : nat) : Bindings :=
  default ∅ (h !! rc).

Definition getContext (h : ContextHeap) (rc : nat) (ctx : Context) : Any :=
  default (ctx_default ctx) (bindings_of h rc !! ctx_symbol ctx).

Definition setContext (h : ContextHeap) (rc : nat) (ctx : Context) (value : Any)
    : nat * ContextHeap :=
  new_RenderContextImpl (<[ctx_symbol ctx := value]> (bindings_of h rc)) h.

(** Modelled from the spec: [attach] (render-impl.js), "binds a plain node
    to evaluate under this context without immediately starting
    evaluation": the node paired with the context it is bound to. *)
Record Attached := {
  attached_context : nat;
  attached_node : Node;
}.

Definition attach (rc : nat) (node : Node) : Attached :=
  {| attached_context := rc; attached_node := node |}.

(** [Provider: ({ value, children }, { setContext }) =>
      setContext(contextValue, value).attach(children)] *)
Definition context_Provider (contextValue : Context) (value : Any)
    (children : Node) (h : ContextHeap) (rc : nat) : Attached * ContextHeap :=
  let '(derived, h') := setContext h rc contextValue value in
  (attach derived children, h').

End Contexts.

Module Replace.
Import Js.

(** [replace]: the generator
    [for await (const node of renderElement.asyncChildNodes) yield replacer(node)]
    is [mapM replacer] over the child sequence. *)
Definition replace (renderElement : RenderElement)
    (replacer : RenderNode → Eff RenderNode) : Eff RenderElement :=
  new_RenderElementImpl (type renderElement) (attributes renderElement)
    (renderContext renderElement) (abortSignal renderElement)
    (mapM replacer (asyncChildNodes renderElement)).

Fixpoint replaceSubtree (renderElement : RenderElement)
    (path : list RenderElement) (replacer : RenderNode → Eff RenderNode)
    : Eff RenderElement :=
  match path with
  | [] => replace renderElement replacer
  | head :: tail =>
      replace renderElement
        (fun node =>
           if strict_eq node head
           then let* r := replaceSubtree head tail replacer in ret (RNElement r)
           else ret node)
  end.

(** A replacer without effects of its own. *)
Definition pure_replacer (f : RenderNode → RenderNode) : RenderNode → Eff RenderNode :=
  fun node => ret (f node).

End Replace.

Module Traverse.
Import Js.

Definition Predicate := RenderElement → bool.

(** [{ yield?, yieldPost?, descend?, path? }] *)
Record TraverseOptions := {
  opt_yield : option Predicate;
  opt_yieldPost : option Predicate;
  opt_descend : option Predicate;
  opt_path : option (list RenderElement);
}.

(** [options.p?.(renderElement)] as a condition: an absent predicate gives
    [undefined], which is falsy. *)
Definition optional_call (p : option Predicate) (r : RenderElement) : bool :=
  match p with
  | Some f => f r
  | None => false
  end.

(** [options.path ?? []] *)
Definition path_or_empty (options : TraverseOptions) : list RenderElement :=
  default [] (opt_path options).

(** [{ ...options, path: p }] *)
Definition with_path (options : TraverseOptions) (p : list RenderElement)
    : TraverseOptions :=
  {| opt_yield := opt_yield options;
     opt_yieldPost := opt_yieldPost options;
     opt_descend := opt_descend options;
     opt_path := Some p |}.

(** The pairs [traverse] yields, in order. *)
Fixpoint traverse (renderElement : RenderElement) (options : TraverseOptions)
    {struct renderElement} : list (RenderElement * list RenderElement) :=
  (if optional_call (opt_yield options) renderElement
   then [(renderElement, path_or_empty options)] else [])
  ++
  (if optional_call (opt_descend options) renderElement
   then
     match renderElement with
     | RenderElementImpl _ _ _ _ _ kids =>
         List.flat_map
           (fun child =>
              match child with
              | RNElement c =>
                  traverse c (with_path options (path_or_empty options ++ [renderElement]))
              | RNString _ => []
              end) kids
     end
   else [])
  ++
  (if optional_call (opt_yieldPost options) renderElement
   then [(renderElement, path_or_empty options)] else []).

(** What a run of [traverse] does, step by step: the calls of [traverse]
    itself, the children pulled from an [asyncChildNodes], and the pairs
    yielded. *)
Inductive TraverseEvent :=
| Entered (r : RenderElement)
| Pulled (parent : RenderElement) (child : RenderNode)
| Yielded (r : RenderElement) (path : list RenderElement).

Fixpoint traverse_trace (renderElement : RenderElement) (options : TraverseOptions)
    {struct renderElement} : list TraverseEvent :=
  [Entered renderElement]
  ++
  (if optional_call (opt_yield options) renderElement
   then [Yielded renderElement (path_or_empty options)] else [])
  ++
  (if optional_call (opt_descend options) renderElement
   then
     match renderElement with
     | RenderElementImpl _ _ _ _ _ kids =>
         List.flat_map
           (fun child =>
              Pulled renderElement child ::
              match child with
              | RNElement c =>
                  traverse_trace c
                    (with_path options (path_or_empty options ++ [renderElement]))
              | RNString _ => []
              end) kids
     end
   else [])
  ++
  (if optional_call (opt_yieldPost options) renderElement
   then [Yielded renderElement (path_or_empty options)] else []).

Definition yields_of (t : list TraverseEvent)
    : list (RenderElement * list RenderElement) :=
  List.flat_map
    (fun ev => match ev with Yielded r p => [(r, p)] | _ => [] end) t.

(** The elements a run enters. *)
Definition entered_of (t : list TraverseEvent) : list RenderElement :=
  List.flat_map (fun ev => match ev with Entered r => [r] | _ => [] end) t.

Definition pulled_of (t : list TraverseEvent) : list RenderNode :=
  List.flat_map (fun ev => match ev with Pulled _ c => [c] | _ => [] end) t.

End Traverse.

Module Fork.
Import Js Elements.

(** [typeof node === 'object' && node.type === forkedSymbol] *)
Definition is_forked (forkedSymbol : JsSymbol) (node : RenderNode) : bool :=
  match node with
  | RNElement e => bool_decide (type e = ISymbol forkedSymbol)
  | RNString _ => false
  end.

(** [fork] renders [forkStream(createNode)] once, into the mixed render
    element, and hands out generators that all read the child sequence of
    that element: one per [createNode()] call and one for the main stream.
    The generators are given here as functions of that child sequence,
    [mixed]; [forkedSymbol] and [id] are the symbols their closures hold.

    The generator given to the [node] of a fork. *)
Fixpoint forked_stream (forkedSymbol id : JsSymbol) (mixed : list RenderNode)
    : list RenderNode :=
  match mixed with
  | [] => []
  | node :: rest =>
      match node with
      | RNElement e =>
          if bool_decide (type e = ISymbol forkedSymbol)
             && js_in (KSymbol id) (attributes e)
          then
            if truthy (js_get (attributes e) (KSymbol id))
            then asyncChildNodes e ++ forked_stream forkedSymbol id rest
            else []
          else forked_stream forkedSymbol id rest
      | RNString _ => forked_stream forkedSymbol id rest
      end
  end.

(** The generator [fork] returns: the main stream. *)
Fixpoint main_stream (forkedSymbol : JsSymbol) (mixed : list RenderNode)
    : list RenderNode :=
  match mixed with
  | [] => []
  | node :: rest =>
      if is_forked forkedSymbol node
      then main_stream forkedSymbol rest
      else node :: main_stream forkedSymbol rest
  end.

(** The three members of the record [createNode()] returns. *)
Definition fork_node (forkedSymbol id : JsSymbol) (context : ComponentContext)
    (mixed : list RenderNode) : Eff RenderElement :=
  new_RenderElementImpl (ISymbol forkedSymbol)
    {[ KSymbol forkedSymbol := AnySymbol id ]}
    context (ctx_abortSignal context)
    (ret (forked_stream forkedSymbol id mixed)).

Definition fork_append (forkedSymbol id : JsSymbol) (node : Node) : Element :=
  createElement (TIntrinsic (ISymbol forkedSymbol))
    (Some {[ KSymbol id := AnyNode (NBoolean true) ]}) [node].

Definition fork_close (forkedSymbol id : JsSymbol) : Element :=
  createElement (TIntrinsic (ISymbol forkedSymbol))
    (Some {[ KSymbol id := AnyNode (NBoolean false) ]}) [].

(** ** The reading of the specification

    A node of the mixed stream is tagged for the fork [id] when it is a
    fork element that carries [id]; it is an append of [id] when the value
    under [id] is truthy and the close marker of [id] otherwise. *)
Definition tagged_for (forkedSymbol id : JsSymbol) (node : RenderNode) : bool :=
  match node with
  | RNElement e =>
      bool_decide (type e = ISymbol forkedSymbol) && js_in (KSymbol id) (attributes e)
  | RNString _ => false
  end.

Definition is_append_of (forkedSymbol id : JsSymbol) (node : RenderNode) : bool :=
  match node with
  | RNElement e =>
      tagged_for forkedSymbol id node && truthy (js_get (attributes e) (KSymbol id))
  | RNString _ => false
  end.

Definition is_close_of (forkedSymbol id : JsSymbol) (node : RenderNode) : bool :=
  match node with
  | RNElement e =>
      tagged_for forkedSymbol id node
      && negb (truthy (js_get (attributes e) (KSymbol id)))
  | RNString _ => false
  end.

Definition payload (node : RenderNode) : list RenderNode :=
  match node with
  | RNElement e => asyncChildNodes e
  | RNString _ => []
  end.

(** The part of the mixed stream before the close marker of [id]. *)
Fixpoint until_close (forkedSymbol id : JsSymbol) (mixed : list RenderNode)
    : list RenderNode :=
  match mixed with
  | [] => []
  | node :: rest =>
      if is_close_of forkedSymbol id node then []
      else node :: until_close forkedSymbol id rest
  end.

(** "Each forked consumer filters the shared underlying stream for its own
    tag and recognizes an explicit close tag as end-of-stream": the payloads
    of the appends of [id], in order, up to the close marker of [id]. *)
Definition demultiplexed (forkedSymbol id : JsSymbol) (mixed : list RenderNode)
    : list RenderNode :=
  List.flat_map payload
    (List.filter (is_append_of forkedSymbol id) (until_close forkedSymbol id mixed)).

End Fork.

Module Abort.

(** Modelled from the spec: the pull loop of the evaluator over a component
    that returned an asynchronous sequence (render-impl.js).  From 4.3 "the
    evaluator pulls successive items; each pulled item replaces the
    evaluator's current rendering-of-this-component subtree ...; the
    sequence's natural end marks final completion of this subtree (an
    unterminated sequence under an aborted signal is force-completed with
    its last-seen value)" and 5 "Aborting: (a) prevents further pulls from
    in-flight asynchronous sequences - the evaluator force-completes with
    the last value seen". *)
Record Evaluator := {
  last_seen : option string;
  pending : list string;
  pulls : nat;
  aborted : bool;
  complete : bool;
}.

(** The host's event loop either lets the evaluator advance (one pull) or
    delivers the abort. *)
Inductive Event :=
| Advance
| AbortSignalled.

Definition start (items : list string) : Evaluator :=
  {| last_seen := None; pending := items; pulls := 0;
     aborted := false; complete := false |}.

Definition step (e : Evaluator) (ev : Event) : Evaluator :=
  match ev with
  | AbortSignalled =>
      {| last_seen := last_seen e; pending := pending e; pulls := pulls e;
         aborted := true; complete := true |}
  | Advance =>
      if complete e || aborted e then e
      else
        match pending e with
        | [] =>
            {| last_seen := last_seen e; pending := []; pulls := pulls e;
               aborted := aborted e; complete := true |}
        | item :: rest =>
            {| last_seen := Some item; pending := rest; pulls := S (pulls e);
               aborted := aborted e; complete := false |}
        end
  end.

Definition run (e : Evaluator) (schedule : list Event) : Evaluator :=
  fold_left step schedule e.

End Abort.

(** Concrete values on which the definitions above are run. *)
Module Samples.
Import Js Elements Contexts Replace Traverse Fork.

Definition sample_context : ComponentContext :=
  {| ctx_ref := 0; ctx_abortSignal := Some 7 |}.

Definition sample_error : Error :=
  {| err_name := "Error"; message := "boom" |}.

(** A runtime whose [render] wraps a string in an element and whose
    component [0] throws, the others returning their [children]. *)
Definition sample_runtime : Runtime :=
  {| render ctx renderable ab :=
       new_RenderElementImpl (IString "text") ∅ ctx ab
         (ret match renderable with
              | RenderableNode (NString s) => [RNString s]
              | _ => []
              end);
     component c props ctx :=
       match c with
       | 0 => ret (Throw sample_error)
       | _ => ret (Normal (RenderableNode
                             match js_get props children_key with
                             | AnyNode n => n
                             | AnySymbol _ => NUndefined
                             end))
       end |}.

Definition sample_props : Props :=
  {[ KString "id" := AnyNode (NString "x") ]}.

Definition props_with_children : Props :=
  {[ children_key := AnyNode (NString "kept") ]}.

Definition sample_leaf : RenderElement :=
  RenderElementImpl 1 (IString "leaf") ∅ sample_context None [RNString "x"].

Definition sample_sibling : RenderElement :=
  RenderElementImpl 2 (IString "sibling") ∅ sample_context None [RNString "y"].

Definition sample_root : RenderElement :=
  RenderElementImpl 0 (IString "root") ∅ sample_context None
    [RNElement sample_leaf; RNString "between"; RNElement sample_sibling].

Definition always : Predicate := fun _ => true.
Definition never : Predicate := fun _ => false.

Definition options_yield_and_post : TraverseOptions :=
  {| opt_yield := Some always; opt_yieldPost := Some always;
     opt_descend := Some never; opt_path := None |}.

Definition options_with_path : TraverseOptions :=
  {| opt_yield := Some always; opt_yieldPost := None;
     opt_descend := Some never; opt_path := Some [sample_sibling] |}.

Definition options_descend : TraverseOptions :=
  {| opt_yield := Some always; opt_yieldPost := None;
     opt_descend := Some always; opt_path := None |}.

Definition upper (node : RenderNode) : RenderNode :=
  match node with
  | RNString _ => RNString "replaced"
  | RNElement e => RNElement e
  end.

Definition sample_heap : ContextHeap := (createRenderContext ∅).2.
Definition sample_rc : nat := (createRenderContext ∅).1.
Definition sample_key : Context :=
  (createContext (AnyNode (NString "default")) 1%positive).1.

(** A mixed stream: two forks [11] and [12] of the fork symbol [5]. *)
Definition tagged (forkedSymbol id : JsSymbol) (flag : bool)
    (o : nat) (kids : list RenderNode) : RenderNode :=
  RNElement (RenderElementImpl o (ISymbol forkedSymbol)
               {[ KSymbol id := AnyNode (NBoolean flag) ]}
               sample_context None kids).

Definition sample_mixed : list RenderNode :=
  [ RNString "main-1";
    tagged 5 11 true 20 [RNString "a1"];
    tagged 5 12 true 21 [RNString "b1"];
    RNElement sample_leaf;
    tagged 5 11 true 22 [RNString "a2"];
    tagged 5 11 false 23 [];
    tagged 5 12 true 24 [RNString "b2"];
    tagged 5 11 true 25 [RNString "a3"];
    RNString "main-2" ]%positive.

End Samples.

Module Lineage.
Import Js Traverse.

(** [descends r p e]: the element [e] is reached from [r] by going down
    child sequences; [p] lists the elements passed on the way, [r] first
    and the parent of [e] last. *)
Inductive descends : RenderElement → list RenderElement → RenderElement → Prop :=
| descends_here (r : RenderElement) : descends r [] r
| descends_child (r c : RenderElement) (p : list RenderElement) (e : RenderElement) :
    In (RNElement c) (asyncChildNodes r) →
    descends c p e →
    descends r (r :: p) e.

(** The elements of a tree, parents before children and children in the
    order of the child sequence. *)
Fixpoint elements_preorder (r : RenderElement) : list RenderElement :=
  r :: match r with
       | RenderElementImpl _ _ _ _ _ kids =>
           List.flat_map
             (fun child =>
                match child with
                | RNElement c => elements_preorder c
                | RNString _ => []
                end) kids
       end.

(** The same elements, children before parents. *)
Fixpoint elements_postorder (r : RenderElement) : list RenderElement :=
  match r with
  | RenderElementImpl _ _ _ _ _ kids =>
      List.flat_map
        (fun child =>
           match child with
           | RNElement c => elements_postorder c
           | RNString _ => []
           end) kids
  end ++ [r].

End Lineage.

Module Logger.
Import Js Logging.

(** [Logger]: one method per level, each taking [(obj, msg?)]. *)
Record Logger (Sink : Type) := {
  logger_fatal : LogPayload → option string → Sink → Sink;
  logger_error : LogPayload → option string → Sink → Sink;
  logger_warn : LogPayload → option string → Sink → Sink;
  logger_info : LogPayload → option string → Sink → Sink;
  logger_debug : LogPayload → option string → Sink → Sink;
  logger_trace : LogPayload → option string → Sink → Sink;
}.
Arguments logger_fatal {Sink} _ _ _ _.
Arguments logger_error {Sink} _ _ _ _.
Arguments logger_warn {Sink} _ _ _ _.
Arguments logger_info {Sink} _ _ _ _.
Arguments logger_debug {Sink} _ _ _ _.
Arguments logger_trace {Sink} _ _ _ _.

(** [LogImplementation.bind(component, props, renderId)] *)
Definition LogImplementation_bind {Sink} `{LogImplementation Sink}
    (component : option Tag) (props : option Props) (renderId : string)
    : Logger Sink :=
  {| logger_fatal obj msg := log Level_fatal component props renderId obj msg;
     logger_error obj msg := log Level_error component props renderId obj msg;
     logger_warn obj msg := log Level_warn component props renderId obj msg;
     logger_info obj msg := log Level_info component props renderId obj msg;
     logger_debug obj msg := log Level_debug component props renderId obj msg;
     logger_trace obj msg := log Level_trace component props renderId obj msg |}.

(** A use of a logger: [logger[level](obj, msg)]. *)
Record LoggerUse := {
  use_level : LogLevel;
  use_obj : LogPayload;
  use_msg : option string;
}.

Definition logger_method {Sink} (logger : Logger Sink) (level : LogLevel)
    : LogPayload → option string → Sink → Sink :=
  match level with
  | Level_fatal => logger_fatal logger
  | Level_error => logger_error logger
  | Level_warn => logger_warn logger
  | Level_info => logger_info logger
  | Level_debug => logger_debug logger
  | Level_trace => logger_trace logger
  end.

Definition use_logger {Sink} (logger : Logger Sink) (sink : Sink) (u : LoggerUse)
    : Sink :=
  logger_method logger (use_level u) (use_obj u) (use_msg u) sink.

Definition use_logger_all {Sink} (logger : Logger Sink) (uses : list LoggerUse)
    (sink : Sink) : Sink :=
  fold_left (use_logger logger) uses sink.

End Logger.

(** * packages/fixie/src/main.ts: the options of [deploy] *)
Module Cli.
Import Stdlib.Strings.Ascii.

(** [s.split(sep)] for a separator of one character. *)
Fixpoint split_on (sep : Ascii.ascii) (s : string) : list string :=
  match s with
  | EmptyString => [EmptyString]
  | String c rest =>
      if decide (c = sep) then EmptyString :: split_on sep rest
      else
        match split_on sep rest with
        | piece :: pieces => String c piece :: pieces
        | [] => [String c EmptyString]
        end
  end.

Fixpoint has_char (c : Ascii.ascii) (s : string) : bool :=
  match s with
  | EmptyString => false
  | String c' rest => bool_decide (c' = c) || has_char c rest
  end.

(** The argument parser of [-e, --env <key=value>]:
    [(v, m) => { const [key, value] = v.split('=');
                 return { ...m, [key]: value ?? '' }; }].
    A missing [key] would be the property name ["undefined"]. *)
Definition env_option (v : string) (m : option (gmap string string))
    : gmap string string :=
  let parts := split_on "="%char v in
  let key := default "undefined" (parts !! 0) in
  let value := parts !! 1 in
  <[key := default EmptyString value]> (default ∅ m).

(** commander calls the parser once per occurrence of the option, with
    the value it returned for the previous occurrence ([undefined] at
    first). *)
Definition env_options (occurrences : list string) : option (gmap string string) :=
  fold_left (fun m v => Some (env_option v m)) occurrences None.

(** The environment handed to [FixieAgent.DeployAgent]:
    [{ FIXIE_API_URL: program.opts().url, ...options.env }] *)
Definition deploy_env (url : string) (env : option (gmap string string))
    : gmap string string :=
  default ∅ env ∪ {[ "FIXIE_API_URL" := url ]}.

End Cli.

(** * batteries/sidekick/platform/sidekick.tsx *)
Module Sidekick.
Import Js.

Inductive Provider :=
| OpenAI
| Anthropic.

(** The element [ModelProvider] returns: [<OpenAI chatModel={model}
    temperature={0}>{children}</OpenAI>] or the same under [Anthropic]. *)
Record ProviderElement := {
  provider : Provider;
  chatModel : string;
  temperature : Z;
  provided_children : Node;
}.

Definition ModelProvider (children : Node) (model : string) : ProviderElement :=
  let isOpenAI := String.prefix "gpt" model in
  if isOpenAI
  then {| provider := OpenAI; chatModel := model; temperature := 0%Z;
          provided_children := children |}
  else {| provider := Anthropic; chatModel := model; temperature := 0%Z;
          provided_children := children |}.

(** [UseToolsProps['tools']]: a record of tools, by name. *)
Definition Tools := gmap string nat.

Record SidekickProps := {
  tools : option Tools;
  systemMessage : option Node;
  model : option string;
  outputFormat : option string;
  genUIExamples : option Node;
  genUIComponentNames : option (list string);
  includeNextStepsRecommendations : option bool;
}.

(** The tree [Sidekick] returns, by the attributes the JSX fills in:
    [<ModelProvider model>], [<ShowConversation present={present}>],
    [<UseTools tools showSteps>], [<SidekickSystemMessage ...>],
    [<ConversationHistory />] and [{props.systemMessage}]. *)
Record SidekickElement := {
  ModelProvider_model : string;
  UseTools_tools : option Tools;
  UseTools_showSteps : bool;
  SystemMessage_timeZone : string;
  SystemMessage_includeNextStepsRecommendations : bool;
  SystemMessage_outputFormat : string;
  SystemMessage_userProvidedGenUIUsageExamples : option Node;
  SystemMessage_userProvidedGenUIComponentNames : option (list string);
  trailing_systemMessage : option Node;
}.

(** [`Model ${props.model} does not support tools. ...`] *)
Definition tools_error (props_model : option string) : Error :=
  {| err_name := "Error";
     message := "Model " +:+ default "undefined" props_model
                +:+ " does not support tools. Only gpt-4 and gpt-3.5 support tools." |}.

Definition Sidekick (props : SidekickProps) : Completion SidekickElement :=
  let model := default "gpt-4-32k" (model props) in
  let modelSupportsTools :=
    String.prefix "gpt-4" model || String.prefix "gpt-3.5" model in
  if negb modelSupportsTools && bool_decide (is_Some (tools props))
  then Throw (tools_error (Sidekick.model props))
  else
    Normal
      {| ModelProvider_model := model;
         UseTools_tools := tools props;
         UseTools_showSteps := true;
         SystemMessage_timeZone := "America/Los_Angeles";
         SystemMessage_includeNextStepsRecommendations :=
           default true (includeNextStepsRecommendations props);
         SystemMessage_outputFormat := default "text/mdx" (outputFormat props);
         SystemMessage_userProvidedGenUIUsageExamples := genUIExamples props;
         SystemMessage_userProvidedGenUIComponentNames := genUIComponentNames props;
         trailing_systemMessage := systemMessage props |}.

End Sidekick.

(** * inspector/console.tsx: the frame index of the tree inspector *)
Module Inspector.

(** The [key] argument of the [useInput] handler. *)
Record Key := {
  rightArrow : bool;
  leftArrow : bool;
}.

(** The two updaters given to [setDebugTreeFrameIndex]; [len] is
    [debugTreeSteps.length], [None] is [null]. *)
Definition on_rightArrow (len : Z) (prevIndex : option Z) : option Z :=
  Some match prevIndex with
       | None => (len - 1)%Z
       | Some i => Z.min (len - 1) (i + 1)
       end.

Definition on_leftArrow (len : Z) (prevIndex : option Z) : option Z :=
  Some match prevIndex with
       | None => (len - 2)%Z
       | Some i => Z.max 0 (i - 1)
       end.

Definition useInput_handler (len : Z) (key : Key) (index : option Z) : option Z :=
  let index := if rightArrow key then on_rightArrow len index else index in
  if leftArrow key then on_leftArrow len index else index.

(** [debugTreeFrameIndex === null ? debugTreeSteps.length - 1 : debugTreeFrameIndex] *)
Definition debugFrameIndexToUse (len : Z) (index : option Z) : Z :=
  match index with
  | None => (len - 1)%Z
  | Some i => i
  end.

(** [debugTreeSteps[i]], for an integer [i]. *)
Definition step_at (steps : list string) (i : Z) : option string :=
  if bool_decide (0 ≤ i)%Z then steps !! Z.to_nat i else None.

(** [debugTreeSteps[debugFrameIndexToUse] ?? ''], the code shown. *)
Definition code_shown (steps : list string) (index : option Z) : string :=
  default EmptyString
    (step_at steps (debugFrameIndexToUse (Z.of_nat (length steps)) index)).

(** What happens to the component: a key is pressed, or the stream pushes
    a step ([pushDebugTreeStep]). *)
Inductive InspectorEvent :=
| KeyPressed (key : Key)
| StepPushed (step : string).

Definition inspector_step (st : list string * option Z) (ev : InspectorEvent)
    : list string * option Z :=
  match ev with
  | KeyPressed key =>
      (st.1, useInput_handler (Z.of_nat (length st.1)) key st.2)
  | StepPushed step => (st.1 ++ [step], st.2)
  end.

Definition inspector_run (st : list string * option Z) (evs : list InspectorEvent)
    : list string * option Z :=
  fold_left inspector_step evs st.

(** The index, when set, names a step. *)
Definition index_valid (st : list string * option Z) : Prop :=
  match st.2 with
  | None => True
  | Some i => (0 ≤ i < Z.of_nat (length st.1))%Z
  end.

End Inspector.

(** * react/index.ts *)
Module ReactBridge.
Import Js.

#[global] Instance Tag_eq_dec : EqDecision Tag.
Proof. solve_decision. Defined.

(** [PartiallyRendered = string | Element<any>] *)
Inductive PartiallyRendered :=
| PRString (s : string)
| PRElement (e : Element).

Definition unwrapReact_error : Error :=
  {| err_name := "Error";
     message := "unwrapReact only expects to see AI.React elements or strings." |}.

(** [React] is the component [LLMx.React]. *)
Definition unwrapReact (React : ComponentRef) (partiallyRendered : PartiallyRendered)
    : Completion Any :=
  match partiallyRendered with
  | PRElement e =>
      if bool_decide (element_tag e ≠ TComponent React)
      then Throw unwrapReact_error
      else Normal (js_get (element_props e) (KString "children"))
  | PRString s => Normal (AnyNode (NString s))
  end.

(** [frame.map(f)] for an [f] that may throw. *)
Fixpoint map_throwing {A B} (f : A → Completion B) (l : list A)
    : Completion (list B) :=
  match l with
  | [] => Normal []
  | x :: l' =>
      match f x with
      | Throw e => Throw e
      | Normal y =>
          match map_throwing f l' with
          | Throw e => Throw e
          | Normal ys => Normal (y :: ys)
          end
      end
  end.

(** The [stop] option [useAI] renders with: [(e) => e.tag == LLMx.React]. *)
Definition stop (React : ComponentRef) (e : Element) : bool :=
  bool_decide (element_tag e = TComponent React).

(** A frame as [stop] leaves it: strings and elements it stopped at. *)
Definition stopped_at (React : ComponentRef) (p : PartiallyRendered) : bool :=
  match p with
  | PRString _ => true
  | PRElement e => stop React e
  end.

End ReactBridge.

(** * The [useFixie] hook: new tokens of the assistant's message *)
Module FixieHook.

Inductive Role :=
| role_user
| role_assistant.

(** [turn.state] *)
Inductive TurnState :=
| state_in_progress
| state_done
| state_stopped
| state_error.

(** [message.kind]: ['text'] with its [content], ['functionCall'],
    ['functionResponse']. *)
Inductive Message :=
| TextMessage (content : string)
| FunctionCall
| FunctionResponse.

Record ConversationTurn := {
  turn_id : string;
  turn_role : Role;
  turn_state : TurnState;
  turn_messages : list Message;
}.

(** [change.type] *)
Inductive ChangeType :=
| change_added
| change_modified
| change_removed.

Record DocChange := {
  change_type : ChangeType;
  change_doc : ConversationTurn;
}.

(** [ModelRequestedState = 'stop' | 'regenerate' | null] *)
Inductive ModelRequestedState :=
| requested_stop
| requested_regenerate.

(** The refs the handler reads and writes, with what it has sent out: the
    arguments of the calls of [onNewTokens] and the [newText] of the
    ['chat:delta:text'] checkpoints, oldest first. *)
Record Refs := {
  lastSeenMostRecentAgentTextMessage : string;
  lastTurnForWhichHandleNewTokensWasCalled : option string;
  newTokens : list string;
  deltaCheckpoints : list string;
}.

(** [_.findLast(turn.messages, { kind: 'text' })], by its content. *)
Fixpoint findLast_text (messages : list Message) : option string :=
  match messages with
  | [] => None
  | m :: rest =>
      match findLast_text rest with
      | Some content => Some content
      | None => match m with TextMessage content => Some content | _ => None end
      end
  end.

(** [s.slice(n)] for [0 <= n] *)
Fixpoint string_slice (n : nat) (s : string) : string :=
  match n, s with
  | 0, _ => s
  | S n', EmptyString => EmptyString
  | S n', String _ rest => string_slice n' rest
  end.

Definition is_empty_string (s : string) : bool :=
  match s with EmptyString => true | String _ _ => false end.

(** The body of [snapshot.docChanges().forEach((change) => ...)]. *)
Definition on_change (modelResponseRequested : option ModelRequestedState)
    (refs : Refs) (change : DocChange) : Refs :=
  match change_type change with
  | change_modified =>
      let turn := change_doc change in
      match turn_role turn with
      | role_assistant =>
          if (match turn_state turn with
              | state_in_progress | state_done => true
              | _ => false
              end)
             && negb (match modelResponseRequested with
                      | Some requested_stop => true
                      | _ => false
                      end)
          then
            let lastMessageFromAgent := lastSeenMostRecentAgentTextMessage refs in
            match findLast_text (turn_messages turn) with
            | Some content =>
                let messageIsContinuation :=
                  negb (is_empty_string lastMessageFromAgent)
                  && String.prefix lastMessageFromAgent content in
                let newMessagePart :=
                  if messageIsContinuation
                  then string_slice (String.length lastMessageFromAgent) content
                  else content in
                if negb messageIsContinuation
                   && bool_decide (lastTurnForWhichHandleNewTokensWasCalled refs
                                   = Some (turn_id turn))
                then refs
                else if negb (is_empty_string newMessagePart)
                then {| lastSeenMostRecentAgentTextMessage := content;
                        lastTurnForWhichHandleNewTokensWasCalled := Some (turn_id turn);
                        newTokens := newTokens refs ++ [newMessagePart];
                        deltaCheckpoints := deltaCheckpoints refs ++ [newMessagePart] |}
                else {| lastSeenMostRecentAgentTextMessage := content;
                        lastTurnForWhichHandleNewTokensWasCalled :=
                          lastTurnForWhichHandleNewTokensWasCalled refs;
                        newTokens := newTokens refs;
                        deltaCheckpoints := deltaCheckpoints refs |}
            | None => refs
            end
          else refs
      | role_user => refs
      end
  | _ => refs
  end.

Definition on_changes (modelResponseRequested : option ModelRequestedState)
    (refs : Refs) (changes : list DocChange) : Refs :=
  fold_left (on_change modelResponseRequested) changes refs.

(** [lastSeenMostRecentAgentTextMessage.current = ''], as [sendMessage],
    [regenerate] and [stop] assign it. *)
Definition clear_lastSeen (refs : Refs) : Refs :=
  {| lastSeenMostRecentAgentTextMessage := EmptyString;
     lastTurnForWhichHandleNewTokensWasCalled :=
       lastTurnForWhichHandleNewTokensWasCalled refs;
     newTokens := newTokens refs;
     deltaCheckpoints := deltaCheckpoints refs |}.

(** A change that streams the message of the assistant turn [id]: the turn
    was modified, is in progress or done, and its last text message has the
    given content. *)
Definition streams (id : string) (content : string) (change : DocChange) : Prop :=
  change_type change = change_modified
  ∧ turn_id (change_doc change) = id
  ∧ turn_role (change_doc change) = role_assistant
  ∧ (turn_state (change_doc change) = state_in_progress
     ∨ turn_state (change_doc change) = state_done)
  ∧ findLast_text (turn_messages (change_doc change)) = Some content.

(** Contents that only grow: each starts with the one before. *)
Fixpoint growing (previous : string) (contents : list string) : Prop :=
  match contents with
  | [] => True
  | content :: rest =>
      String.prefix previous content = true ∧ growing content rest
  end.

Definition concat_strings (l : list string) : string :=
  fold_right String.append EmptyString l.

End FixieHook.

(** * [Scope] and [Inline] *)
Module InlineScope.
Import Js.

(** What [Scope] uses without defining: the component [Inline] as a
    value, [memo] (memoize.js), and the call of a function stored in
    props. *)
Class ScopeEnv := {
  Inline : ComponentRef;
  memo : Node → Node;
  call_function : Any → Node → Node;
}.

(** [collected.concat(current)]: an array argument is spread, any other
    value is appended. *)
Definition js_concat (collected : list Node) (current : Node) : list Node :=
  match current with
  | NArray l => collected ++ l
  | _ => collected ++ [current]
  end.

(** [LLMx.isElement(current) && current.tag === Inline] *)
Definition is_Inline `{ScopeEnv} (current : Node) : bool :=
  match current with
  | NElement e =>
      match element_tag e with
      | TComponent c => bool_decide (c = Inline)
      | TIntrinsic _ => false
      end
  | _ => false
  end.

(** The function given to [reduce]. *)
Definition Scope_reducer `{ScopeEnv} (collected : list Node) (current : Node)
    : list Node :=
  match current with
  | NElement e =>
      if is_Inline current
      then
        let memoized := memo (NArray collected) in
        [memoized;
         call_function (js_get (element_props e) (KString "children")) memoized]
      else js_concat collected current
  | _ => js_concat collected current
  end.

(** [Scope(props)], on [props.children]. *)
Definition Scope `{ScopeEnv} (props_children : Node) : list Node :=
  let children :=
    match props_children with
    | NArray l => l
    | _ => [props_children]
    end in
  fold_left Scope_reducer (flat_infinity children) [].

End InlineScope.

(** * [DebugTree]: the [shouldStop] predicate of one pass *)
Module DebugStep.
Section Elements.
Context {E : Type} `{EqDecision E}.

(** [shouldStop], on the variable [elementToRender] it closes over
    ([None] is [null]); [E] is the identity of an element. *)
Definition shouldStop (elementToRender : option E) (element : E)
    : option E * bool :=
  let elementToRender :=
    match elementToRender with
    | None => Some element
    | Some _ => elementToRender
    end in
  (elementToRender, bool_decide (Some element ≠ elementToRender)).

(** The answers to a sequence of calls in one pass, and the variable at
    the end. *)
Fixpoint shouldStop_all (elementToRender : option E) (elements : list E)
    : option E * list bool :=
  match elements with
  | [] => (elementToRender, [])
  | element :: rest =>
      let '(elementToRender, answer) := shouldStop elementToRender element in
      let '(final, answers) := shouldStop_all elementToRender rest in
      (final, answer :: answers)
  end.

(** [didRenderSomething = () => elementToRender !== null] *)
Definition didRenderSomething (elementToRender : option E) : bool :=
  bool_decide (elementToRender ≠ None).

End Elements.
End DebugStep.

(** Concrete values for the modules above. *)
Module MoreSamples.
Import Js Elements Sidekick Inspector FixieHook InlineScope.

Definition sidekick_with_tools : SidekickProps :=
  {| tools := Some {[ "lookup" := 1 ]}; systemMessage := None;
     model := Some "gpt-4"; outputFormat := None; genUIExamples := None;
     genUIComponentNames := None; includeNextStepsRecommendations := None |}.

Definition sidekick_with_tools_element : SidekickElement :=
  {| ModelProvider_model := "gpt-4";
     UseTools_tools := Some {[ "lookup" := 1 ]};
     UseTools_showSteps := true;
     SystemMessage_timeZone := "America/Los_Angeles";
     SystemMessage_includeNextStepsRecommendations := true;
     SystemMessage_outputFormat := "text/mdx";
     SystemMessage_userProvidedGenUIUsageExamples := None;
     SystemMessage_userProvidedGenUIComponentNames := None;
     trailing_systemMessage := None |}.

Definition sidekick_claude_with_tools : SidekickProps :=
  {| tools := Some {[ "lookup" := 1 ]}; systemMessage := None;
     model := Some "claude-2"; outputFormat := None; genUIExamples := None;
     genUIComponentNames := None; includeNextStepsRecommendations := None |}.

Definition left_key : Key := {| rightArrow := false; leftArrow := true |}.
Definition right_key : Key := {| rightArrow := true; leftArrow := false |}.

Definition initial_refs : Refs :=
  {| lastSeenMostRecentAgentTextMessage := EmptyString;
     lastTurnForWhichHandleNewTokensWasCalled := None;
     newTokens := [];
     deltaCheckpoints := [] |}.

Definition streaming_change (state : TurnState) (content : string) : DocChange :=
  {| change_type := change_modified;
     change_doc := {| turn_id := "turn-1"; turn_role := role_assistant;
                      turn_state := state;
                      turn_messages := [FunctionCall; TextMessage content] |} |}.

Definition refs_after_hello : Refs :=
  {| lastSeenMostRecentAgentTextMessage := "Hello";
     lastTurnForWhichHandleNewTokensWasCalled := Some "turn-1";
     newTokens := ["He"; "llo"];
     deltaCheckpoints := ["He"; "llo"] |}.

(** An environment for [Scope]: [memo] and the call of the function of an
    [Inline] element leave a mark around their argument. *)
Definition sample_scope_env : ScopeEnv :=
  {| Inline := 7;
     memo n := NArray [NString "memo"; n];
     call_function f n := NArray [NString "called"; n] |}.

Definition inline_element : Element :=
  ElementFn (TComponent 7) {[ KString "children" := AnySymbol 1%positive ]} [].

End MoreSamples.

(** * The invocation of an element, with callees that may throw *)
Module Invocation.
Import Js Elements.

(** The three functions the closure of [createElement] calls, none of
    which it defines: the component ([tag(propsToPass, ctx)]), [ctx.render]
    and [new RenderElementImpl(...)].  Each is taken as it is called, as a
    JavaScript function that returns or throws. *)
Class Callees := {
  call_component :
    ComponentRef → Props → ComponentContext → Eff (Completion Renderable);
  call_render :
    ComponentContext → Renderable → option AbortSignal →
    Eff (Completion RenderElement);
  call_new_RenderElementImpl :
    Intrinsic → Props → ComponentContext → option AbortSignal →
    list RenderNode → Eff (Completion RenderElement);
}.

(** [array.map(f)] for an [f] that may throw: the first exception ends
    the loop. *)
Fixpoint mapM_throwing {A B} (f : A → Eff (Completion B)) (l : list A)
    : Eff (Completion (list B)) :=
  match l with
  | [] => ret (Normal [])
  | x :: l' =>
      fun s =>
        match f x s with
        | (Throw err, s1) => (Throw err, s1)
        | (Normal y, s1) =>
            match mapM_throwing f l' s1 with
            | (Throw err, s2) => (Throw err, s2)
            | (Normal ys, s2) => (Normal (y :: ys), s2)
            end
        end
  end.

(** The body of [fn]: the arguments of [new RenderElementImpl] are
    evaluated first, the children among them, then the constructor runs.
    Nothing is caught. *)
Definition invoke_element `{Callees} (e : Element) (ctx : ComponentContext)
    : Eff (Completion Renderable) :=
  match e with
  | ElementFn tag propsToPass children =>
      match tag with
      | TComponent c => call_component c propsToPass ctx
      | TIntrinsic t =>
          fun s =>
            match mapM_throwing (fun c => call_render ctx (RenderableNode c) None)
                    (flat_infinity children) s with
            | (Throw err, s1) => (Throw err, s1)
            | (Normal rendered, s1) =>
                match call_new_RenderElementImpl t propsToPass ctx
                        (ctx_abortSignal ctx) (RNElement <$> rendered) s1 with
                | (Throw err, s2) => (Throw err, s2)
                | (Normal r, s2) => (Normal (RenderableNode (NRender r)), s2)
                end
            end
      end
  end.

(** A runtime whose [render] and constructor always return is a special
    case. *)
Definition callees_of (R : Runtime) : Callees :=
  {| call_component := @component R;
     call_render ctx renderable ab s :=
       (Normal (@render R ctx renderable ab s).1, (@render R ctx renderable ab s).2);
     call_new_RenderElementImpl t attrs ctx ab kids s :=
       (Normal (new_RenderElementImpl t attrs ctx ab (ret kids) s).1,
        (new_RenderElementImpl t attrs ctx ab (ret kids) s).2) |}.

(** ** The reading of the specification *)

(** "(deeply flattened)": the members that are not arrays, in order,
    arrays being opened wherever they are. *)
Inductive Flattened : list Node → list Node → Prop :=
| Flattened_nil : Flattened [] []
| Flattened_array (l rest inner outer : list Node) :
    Flattened l inner →
    Flattened rest outer →
    Flattened (NArray l :: rest) (inner ++ outer)
| Flattened_member (n : Node) (rest outer : list Node) :
    match n with NArray _ => False | _ => True end →
    Flattened rest outer →
    Flattened (n :: rest) (n :: outer).




End Invocation.

Module InvocationSamples.
Import Js Elements Invocation.

(** Callees on which the definitions are run: a component that returns
    its [children], a [render] that throws on the string ["bad"] and wraps
    any other node, and the constructor as [new_RenderElementImpl] has it. *)
Definition render_error : Error :=
  {| err_name := "Error"; message := "render failed" |}.

Definition sample_callees : Callees :=
  {| call_component c props ctx :=
       ret (Normal (RenderableNode
                      match js_get props (KString "children") with
                      | AnyNode n => n
                      | AnySymbol _ => NUndefined
                      end));
     call_render ctx renderable ab s :=
       match renderable with
       | RenderableNode (NString "bad") => (Throw render_error, s)
       | _ => (Normal (RenderElementImpl s (IString "text") ∅ ctx ab []), S s)
       end;
     call_new_RenderElementImpl t attrs ctx ab kids s :=
       (Normal (RenderElementImpl s t attrs ctx ab kids), S s) |}.

(** The same callees with a constructor that throws. *)
Definition failing_constructor : Callees :=
  {| call_component := @call_component sample_callees;
     call_render := @call_render sample_callees;
     call_new_RenderElementImpl t attrs ctx ab kids s := (Throw render_error, s) |}.

End InvocationSamples.

(* ===================================================================== *)
(** * Part II: properties                                                 *)
(* ===================================================================== *)

Module JsFacts.
Import Js.

Lemma bind_run {A B} (m : Eff A) (k : A → Eff B) (s : Store) :
  bind m k s = k (m s).1 (m s).2.
Proof. unfold bind. by destruct (m s). Qed.

Lemma mapM_cons {A B} (f : A → Eff B) (x : A) (l : list A) (s : Store) :
  mapM f (x :: l) s =
    ((f x s).1 :: (mapM f l (f x s).2).1, (mapM f l (f x s).2).2).
Proof.
  cbn [mapM]. rewrite bind_run, bind_run. reflexivity.
Qed.

Lemma mapM_length {A B} (f : A → Eff B) (l : list A) (s : Store) :
  length (mapM f l s).1 = length l.
Proof.
  revert s. induction l as [|x l IH]; intros s; [done|].
  rewrite mapM_cons. cbn. by rewrite IH.
Qed.

(** Every output of [mapM f] is [f] of the input at the same index, run in
    the store the loop had reached. *)
Lemma mapM_lookup {A B} (f : A → Eff B) (l : list A) (s : Store) (i : nat) (x : A) :
  l !! i = Some x → ∃ si, (mapM f l s).1 !! i = Some (f x si).1.
Proof.
  revert s i. induction l as [|y l IH]; intros s i Hi; [done|].
  rewrite mapM_cons. destruct i as [|i]; cbn in *.
  - injection Hi as ->. by exists s.
  - by apply IH.
Qed.

Lemma mapM_Forall2 {A B} (f : A → Eff B) (l : list A) (s : Store) :
  Forall2 (fun x y => ∃ si, y = (f x si).1) l (mapM f l s).1.
Proof.
  revert s. induction l as [|x l IH]; intros s.
  - constructor.
  - rewrite mapM_cons. constructor; [by exists s | apply IH].
Qed.

Lemma mapM_ret {A B} (f : A → B) (l : list A) (s : Store) :
  mapM (fun x => ret (f x)) l s = (f <$> l, s).
Proof.
  induction l as [|x l IH]; [done|].
  rewrite mapM_cons. cbn. by rewrite IH.
Qed.

(** An element that the loop body returns as it is stays in place. *)
Lemma mapM_lookup_unchanged {A} (f : A → Eff A) (l : list A) (s : Store)
    (i : nat) (x : A) :
  l !! i = Some x → (∀ si, (f x si).1 = x) → (mapM f l s).1 !! i = Some x.
Proof.
  intros Hi Hx. destruct (mapM_lookup f l s i x Hi) as [si Hsi].
  by rewrite Hsi, Hx.
Qed.

Lemma new_RenderElementImpl_run type attrs ctx ab (children : Eff (list RenderNode))
    (s : Store) :
  new_RenderElementImpl type attrs ctx ab children s =
    (RenderElementImpl s type attrs ctx ab (children (S s)).1, (children (S s)).2).
Proof.
  unfold new_RenderElementImpl. rewrite bind_run, bind_run. reflexivity.
Qed.

(** Induction on the nesting of arrays in a node. *)
Lemma Node_array_ind (P : Node → Prop) :
  (∀ n, is_array n = false → P n) →
  (∀ l, Forall P l → P (NArray l)) →
  ∀ n, P n.
Proof.
  intros Hleaf Harr. fix IH 1.
  intros [| |b|x|s|r|e|l]; try (apply Hleaf; reflexivity).
  apply Harr. induction l as [|n l IHl]; constructor; [apply IH | exact IHl].
Qed.

Lemma flat_node_leaf (n : Node) : is_array n = false → flat_node n = [n].
Proof. by destruct n. Qed.

Lemma flat_node_no_array (n : Node) :
  Forall (fun m => is_array m = false) (flat_node n).
Proof.
  induction n as [n Hn | l IH] using Node_array_ind.
  - rewrite flat_node_leaf by done. by constructor.
  - cbn [flat_node]. induction IH as [|n l Hn _ IHl]; cbn.
    + constructor.
    + apply Forall_app. split; [exact Hn | exact IHl].
Qed.

(** [flat(Infinity)] leaves no array behind ... *)
Lemma flat_infinity_no_array (l : list Node) :
  Forall (fun m => is_array m = false) (flat_infinity l).
Proof.
  unfold flat_infinity. induction l as [|n l IH]; cbn.
  - constructor.
  - apply Forall_app. split; [apply flat_node_no_array | exact IH].
Qed.

(** ... keeps a list without arrays as it is ... *)
Lemma flat_infinity_flat (l : list Node) :
  Forall (fun m => is_array m = false) l → flat_infinity l = l.
Proof.
  unfold flat_infinity. induction 1 as [|n l Hn _ IH]; cbn; [done|].
  by rewrite flat_node_leaf, IH.
Qed.

(** ... and works through the members from left to right. *)
Lemma flat_infinity_app (l1 l2 : list Node) :
  flat_infinity (l1 ++ l2) = flat_infinity l1 ++ flat_infinity l2.
Proof. unfold flat_infinity. apply List.flat_map_app. Qed.

Lemma flat_infinity_array (l rest : list Node) :
  flat_infinity (NArray l :: rest) = flat_infinity l ++ flat_infinity rest.
Proof. reflexivity. Qed.

End JsFacts.

Module ElementsFacts.
Import Js Elements JsFacts.

Lemma spread_lookup (target source : Props) (k : PropertyKey) :
  spread target source !! k =
    match source !! k with Some v => Some v | None => target !! k end.
Proof.
  unfold spread. rewrite lookup_union. by destruct (source !! k), (target !! k).
Qed.

(** The record of [propsToPass], key by key. *)
Lemma propsToPass_lookup (props : option Props) (children : list Node)
    (k : PropertyKey) :
  propsToPass props children !! k =
    if decide (k = children_key) then
      match children with
      | [] => default ∅ props !! k
      | [c] => Some (AnyNode c)
      | _ => Some (AnyNode (NArray children))
      end
    else default ∅ props !! k.
Proof.
  unfold propsToPass. rewrite !spread_lookup, lookup_empty.
  destruct (decide (k = children_key)) as [->|Hk].
  - destruct children as [|c [|c' l]];
      rewrite ?lookup_empty, ?lookup_singleton_eq;
      try reflexivity.
    by destruct (default ∅ props !! children_key).
  - destruct children as [|c [|c' l]];
      rewrite ?lookup_empty, ?lookup_singleton_ne by done;
      by destruct (default ∅ props !! k).
Qed.

Lemma invoke_component `{Runtime} (c : ComponentRef) (props : option Props)
    (children : list Node) (ctx : ComponentContext) :
  invoke (createElement (TComponent c) props children) ctx =
    component c (propsToPass props children) ctx.
Proof. reflexivity. Qed.

Lemma invoke_intrinsic `{Runtime} (t : Intrinsic) (props : option Props)
    (children : list Node) (ctx : ComponentContext) (s : Store) :
  let rendered :=
    mapM (fun c => render ctx (RenderableNode c) None) (flat_infinity children) s in
  invoke (createElement (TIntrinsic t) props children) ctx s =
    (Normal (RenderableNode (NRender
       (RenderElementImpl rendered.2 t (propsToPass props children) ctx
          (ctx_abortSignal ctx) (RNElement <$> rendered.1)))),
     S rendered.2).
Proof.
  cbn [createElement invoke]. rewrite bind_run, bind_run.
  rewrite new_RenderElementImpl_run. reflexivity.
Qed.

(** Without children the record is a copy of [props]. *)
Lemma propsToPass_no_children (props : option Props) :
  propsToPass props [] = default ∅ props.
Proof.
  apply map_eq. intros k. rewrite propsToPass_lookup. by case_decide.
Qed.

(** C10, as amended.  The record [createElement] hands to the component,
    or stores as the attributes of the render element: without children it
    is a copy of [props], so it has a [children] key only when [props]
    itself has one; with one child, [children] is that child; with two or
    more, [children] is the array of the children in call order; every
    other key is the one of [props]. *)
Theorem propsToPass_shape `{Runtime} (tag : Tag) (props : option Props)
    (children : list Node) :
  let merged := propsToPass props children in
  element_props (createElement tag props children) = merged
  ∧ (children = [] → merged = default ∅ props)
  ∧ (children = [] → default ∅ props !! children_key = None →
     merged !! children_key = None)
  ∧ (∀ c, children = [c] → merged !! children_key = Some (AnyNode c))
  ∧ (2 ≤ length children →
     merged !! children_key = Some (AnyNode (NArray children)))
  ∧ (∀ k, k ≠ children_key → merged !! k = default ∅ props !! k)
  ∧ (∀ ctx s,
       match tag with
       | TComponent c =>
           invoke (createElement tag props children) ctx s = component c merged ctx s
       | TIntrinsic t =>
           ∃ r s', invoke (createElement tag props children) ctx s =
                     (Normal (RenderableNode (NRender r)), s')
                   ∧ attributes r = merged
       end).
Proof.
  intros merged. subst merged. repeat split.
  - intros ->. apply propsToPass_no_children.
  - intros -> Hprops. by rewrite propsToPass_no_children.
  - intros c ->. rewrite propsToPass_lookup. by rewrite decide_True.
  - intros Hlen. rewrite propsToPass_lookup, decide_True by done.
    destruct children as [|c [|c' l]]; cbn in Hlen; [lia | lia | done].
  - intros k Hk. rewrite propsToPass_lookup. by rewrite decide_False.
  - intros ctx s. destruct tag as [c|t].
    + by rewrite invoke_component.
    + eexists _, _. rewrite invoke_intrinsic. split; reflexivity.
Qed.

End ElementsFacts.

Module InvocationFacts.
Import Js Elements Invocation JsFacts ElementsFacts.


(** ... and by nothing else. *)
Lemma Flattened_unique (l a b : list Node) :
  Flattened l a → Flattened l b → a = b.
Proof.
  intros Ha. revert b.
  induction Ha as [|l rest inner outer _ IHl _ IHrest|n rest outer Hn _ IH];
    intros b Hb.
  - by inversion Hb.
  - inversion Hb as [|? ? inner' outer' Hl Hrest|? ? ? Hn']; subst; [|done].
    by rewrite (IHl _ Hl), (IHrest _ Hrest).
  - inversion Hb as [|? ? inner' outer' Hl Hrest|? ? outer' Hn' Hrest]; subst;
      [done|]. by rewrite (IH _ Hrest).
Qed.




(** With a [render] and a constructor that always return, the invocation
    is [Elements.invoke]. *)
Lemma invoke_element_runtime (R : Runtime) (e : Element) (ctx : ComponentContext)
    (s : Store) :
  @invoke_element (callees_of R) e ctx s = @invoke R e ctx s.
Proof.
  destruct e as [[c|t] attrs children]; [done|].
  cbn [invoke_element invoke]. rewrite bind_run, bind_run.
  assert (Hmap : ∀ l s0,
    @mapM_throwing _ _
      (fun c => @call_render (callees_of R) ctx (RenderableNode c) None) l s0
    = (Normal (mapM (fun c => @render R ctx (RenderableNode c) None) l s0).1,
       (mapM (fun c => @render R ctx (RenderableNode c) None) l s0).2)).
  { induction l as [|c l IH]; intros s0; [done|].
    cbn [mapM_throwing]. cbn [call_render callees_of].
    rewrite IH, mapM_cons. reflexivity. }
  rewrite Hmap. cbn [call_new_RenderElementImpl callees_of]. reflexivity.
Qed.

End InvocationFacts.

Module LoggingFacts.
Import Js Logging.

(** Whatever the implementation, [logException] is one call of its [log]. *)
Lemma logException_is_log {Sink} `{LogImplementation Sink}
    (component : option Tag) (props : option Props) (renderId : string)
    (error : Error) (bubbling : bool) (sink : Sink) :
  logException component props renderId error bubbling sink =
    log (if bubbling then Level_warn else Level_error) component props renderId
      (PayloadError error) (Some (message error)) sink.
Proof. unfold logException. by destruct bubbling. Qed.

(** C9. [logException] makes exactly one emission: at level [warn] when
    [bubbling] is true and at level [error] when it is false; the emission
    carries the error object, the message of the error, the component, the
    props and the render id. *)
Theorem logException_one_emission (component : option Tag) (props : option Props)
    (renderId : string) (error : Error) (bubbling : bool) (calls : list LogCall) :
  @logException _ recording component props renderId error bubbling calls =
    calls ++ [ {| call_level := if bubbling then Level_warn else Level_error;
                  call_component := component;
                  call_props := props;
                  call_renderId := renderId;
                  call_metadataOrMessage := PayloadError error;
                  call_message := Some (message error) |} ].
Proof. rewrite logException_is_log. reflexivity. Qed.

(** On the console sink the emission is one call of [console.warn] or
    [console.error] whose first argument is the message; the error object
    is passed as [metadata] when the message is not empty. *)
Lemma logException_console (component : option Tag) (props : option Props)
    (renderId : string) (error : Error) (bubbling : bool)
    (calls : list ConsoleCall) :
  @logException _ ConsoleLogImplementation component props renderId error bubbling calls =
    calls ++ [ {| console_method := if bubbling then Level_warn else Level_error;
                  console_first := PayloadString (message error);
                  console_component := component;
                  console_props := props;
                  console_renderId := renderId;
                  console_metadata :=
                    if bool_decide (message error = EmptyString)
                    then None else Some (PayloadError error) |} ].
Proof.
  rewrite logException_is_log. cbn. do 3 f_equal.
  - by destruct bubbling.
  - by case_bool_decide.
Qed.

End LoggingFacts.

Module ContextsFacts.
Import Js Contexts.

Lemma new_RenderContextImpl_fresh (bindings : Bindings) (h : ContextHeap) :
  (new_RenderContextImpl bindings h).1 ∉ dom h.
Proof. apply is_fresh. Qed.

Lemma new_RenderContextImpl_lookup (bindings : Bindings) (h : ContextHeap) :
  (new_RenderContextImpl bindings h).2 !! (new_RenderContextImpl bindings h).1
    = Some bindings.
Proof. apply lookup_insert_eq. Qed.

(** Allocation leaves every object of the heap as it was. *)
Lemma new_RenderContextImpl_frame (bindings : Bindings) (h : ContextHeap) (rc : nat) :
  rc ∈ dom h → (new_RenderContextImpl bindings h).2 !! rc = h !! rc.
Proof.
  intros Hrc. cbn. apply lookup_insert_ne. intros Heq.
  apply (is_fresh (dom h)). by rewrite Heq.
Qed.

Lemma createContext_symbols (d1 d2 : Any) (supply : JsSymbol) :
  ctx_symbol (createContext d1 supply).1
    ≠ ctx_symbol (createContext d2 (createContext d1 supply).2).1.
Proof. cbn. lia. Qed.

Lemma setContext_fresh (h : ContextHeap) (rc : nat) (ctx : Context) (value : Any) :
  (setContext h rc ctx value).1 ∉ dom h.
Proof. apply new_RenderContextImpl_fresh. Qed.

Lemma setContext_bound (h : ContextHeap) (rc : nat) (ctx : Context) (value : Any) :
  getContext (setContext h rc ctx value).2 (setContext h rc ctx value).1 ctx = value.
Proof.
  unfold setContext, getContext, bindings_of.
  rewrite new_RenderContextImpl_lookup. cbn. by rewrite lookup_insert_eq.
Qed.

(** Most deeply nested binding wins; the other keys are inherited. *)
Lemma setContext_inherits (h : ContextHeap) (rc : nat) (ctx other : Context)
    (value : Any) :
  ctx_symbol other ≠ ctx_symbol ctx →
  getContext (setContext h rc ctx value).2 (setContext h rc ctx value).1 other
  = getContext h rc other.
Proof.
  intros Hother. unfold setContext, getContext at 1, bindings_of at 1.
  rewrite new_RenderContextImpl_lookup. cbn. by rewrite lookup_insert_ne.
Qed.

Lemma setContext_frame (h : ContextHeap) (rc : nat) (ctx : Context) (value : Any)
    (rc' : nat) (key : Context) :
  rc' ∈ dom h →
  getContext (setContext h rc ctx value).2 rc' key = getContext h rc' key.
Proof.
  intros Hrc'. unfold setContext, getContext, bindings_of.
  by rewrite new_RenderContextImpl_frame.
Qed.

(** C2. [setContext] on a context [rc] of the heap returns a context that
    was not there before, in which the key is bound to the value and every
    other key resolves as in [rc]; the context [rc] and every other context
    of the heap (derived earlier, or a sibling) keep their record of
    bindings, so [getContext] on them returns what it returned before. *)
Theorem setContext_derives (h : ContextHeap) (rc : nat) (ctx : Context) (value : Any) :
  rc ∈ dom h →
  let derived := (setContext h rc ctx value).1 in
  let h' := (setContext h rc ctx value).2 in
  (derived ∉ dom h)
  ∧ getContext h' derived ctx = value
  ∧ (∀ other, ctx_symbol other ≠ ctx_symbol ctx →
       getContext h' derived other = getContext h rc other)
  ∧ (∀ key, getContext h' rc key = getContext h rc key)
  ∧ (∀ rc' key, rc' ∈ dom h → getContext h' rc' key = getContext h rc' key).
Proof.
  intros Hrc derived h'. subst derived h'.
  split; [apply setContext_fresh|].
  split; [apply setContext_bound|].
  split; [intros other; apply setContext_inherits|].
  split; [intros key; by apply setContext_frame|].
  intros rc' key. apply setContext_frame.
Qed.

(** The provider of a context binds it for the attached children only. *)
Lemma context_Provider_attaches (contextValue : Context) (value : Any)
    (children : Node) (h : ContextHeap) (rc : nat) :
  rc ∈ dom h →
  let attached := (context_Provider contextValue value children h rc).1 in
  let h' := (context_Provider contextValue value children h rc).2 in
  attached_node attached = children
  ∧ getContext h' (attached_context attached) contextValue = value
  ∧ ∀ key, getContext h' rc key = getContext h rc key.
Proof.
  intros Hrc. unfold context_Provider.
  pose proof (setContext_bound h rc contextValue value) as Hv.
  pose proof (fun key => setContext_frame h rc contextValue value rc key Hrc) as Hk.
  destruct (setContext h rc contextValue value) as [derived h'] eqn:E. cbn in *.
  by repeat split.
Qed.

End ContextsFacts.

Module ReplaceFacts.
Import Js Replace JsFacts.

Lemma replace_run (r : RenderElement) (replacer : RenderNode → Eff RenderNode)
    (s : Store) :
  replace r replacer s =
    (RenderElementImpl s (type r) (attributes r) (renderContext r) (abortSignal r)
       (mapM replacer (asyncChildNodes r) (S s)).1,
     (mapM replacer (asyncChildNodes r) (S s)).2).
Proof. unfold replace. apply new_RenderElementImpl_run. Qed.

(** C7. [replace] returns a new render element (a fresh allocation, so
    not [r] when [r] was allocated before) with the type, attributes, render
    context and abort signal of [r], whose child sequence is, in order, the
    replacer applied to each node of the child sequence of [r]. *)
Theorem replace_maps_children (r : RenderElement) (f : RenderNode → RenderNode)
    (s : Store) :
  let r' := (replace r (pure_replacer f) s).1 in
  oid r' = s
  ∧ (oid r < s → oid r' ≠ oid r)
  ∧ type r' = type r
  ∧ attributes r' = attributes r
  ∧ renderContext r' = renderContext r
  ∧ abortSignal r' = abortSignal r
  ∧ asyncChildNodes r' = f <$> asyncChildNodes r
  ∧ (∀ i, asyncChildNodes r' !! i = f <$> (asyncChildNodes r !! i)).
Proof.
  intros r'. subst r'. rewrite replace_run. cbn.
  unfold pure_replacer. rewrite mapM_ret. cbn.
  repeat split; try done.
  - lia.
  - intros i. apply list_lookup_fmap.
Qed.

(** With a replacer that has effects the child sequence is still the
    replacer applied index by index. *)
Lemma replace_lookup (r : RenderElement) (replacer : RenderNode → Eff RenderNode)
    (s : Store) (i : nat) (node : RenderNode) :
  asyncChildNodes r !! i = Some node →
  ∃ si, asyncChildNodes (replace r replacer s).1 !! i = Some (replacer node si).1.
Proof. intros Hi. rewrite replace_run. cbn. by apply mapM_lookup. Qed.

Lemma replaceSubtree_nil (r : RenderElement) (replacer : RenderNode → Eff RenderNode) :
  replaceSubtree r [] replacer = replace r replacer.
Proof. reflexivity. Qed.

(** C6. With an empty path [replaceSubtree] is [replace]: the replacer is
    applied to the children of the element itself.  With a path
    [head :: tail] the result has the type, attributes, context and abort
    signal of [r] and as many children; a child that is not [head] appears
    in the output as it is, and a child that is [head] is replaced by
    [replaceSubtree head tail replacer], which treats the next level in the
    same way. *)
Theorem replaceSubtree_frame (r : RenderElement) (path : list RenderElement)
    (replacer : RenderNode → Eff RenderNode) (s : Store) :
  match path with
  | [] => replaceSubtree r path replacer s = replace r replacer s
  | head :: tail =>
      let r' := (replaceSubtree r path replacer s).1 in
      type r' = type r
      ∧ attributes r' = attributes r
      ∧ renderContext r' = renderContext r
      ∧ abortSignal r' = abortSignal r
      ∧ length (asyncChildNodes r') = length (asyncChildNodes r)
      ∧ (∀ i node, asyncChildNodes r !! i = Some node →
           if strict_eq node head
           then ∃ si, asyncChildNodes r' !! i =
                        Some (RNElement (replaceSubtree head tail replacer si).1)
           else asyncChildNodes r' !! i = Some node)
  end.
Proof.
  destruct path as [|head tail]; [reflexivity|].
  cbn [replaceSubtree]. rewrite replace_run. cbn.
  repeat split.
  - apply mapM_length.
  - intros i node Hi.
    match goal with |- context [mapM ?g _ _] => set (g0 := g) end.
    destruct (mapM_lookup g0 (asyncChildNodes r) (S s) i node Hi) as [si Hsi].
    subst g0. cbn beta in Hsi.
    destruct (strict_eq node head).
    + exists si. by rewrite Hsi, bind_run.
    + exact Hsi.
Qed.

(** When no child of [r] is the head of the path, nothing is replaced: the
    replacer is not used. *)
Lemma replaceSubtree_miss (r head : RenderElement) (tail : list RenderElement)
    (replacer : RenderNode → Eff RenderNode) (s : Store) :
  Forall (fun node => strict_eq node head = false) (asyncChildNodes r) →
  replaceSubtree r (head :: tail) replacer s =
    (RenderElementImpl s (type r) (attributes r) (renderContext r) (abortSignal r)
       (asyncChildNodes r), S s).
Proof.
  intros Hmiss. cbn [replaceSubtree]. rewrite replace_run.
  assert (Hmap : ∀ s0, mapM
     (fun node => if strict_eq node head
                  then bind (replaceSubtree head tail replacer)
                         (fun r0 => ret (RNElement r0))
                  else ret node) (asyncChildNodes r) s0 = (asyncChildNodes r, s0)).
  { induction Hmiss as [|node l Hnode _ IH]; intros s0; [done|].
    rewrite mapM_cons, Hnode. cbn. by rewrite IH. }
  by rewrite Hmap.
Qed.

End ReplaceFacts.

Module TraverseFacts.
Import Js Traverse.

(** Induction on a render element through its child sequence. *)
Lemma RenderElement_kids_ind (P : RenderElement → Prop) :
  (∀ o t a c ab kids,
     Forall (fun n => match n with RNElement e => P e | RNString _ => True end) kids →
     P (RenderElementImpl o t a c ab kids)) →
  ∀ r, P r.
Proof.
  intros Hstep. fix IH 1. intros [o t a c ab kids]. apply Hstep.
  induction kids as [|n kids IHkids]; constructor; [|exact IHkids].
  destruct n as [str|e]; [exact I | apply IH].
Qed.

Lemma yields_of_app (t1 t2 : list TraverseEvent) :
  yields_of (t1 ++ t2) = yields_of t1 ++ yields_of t2.
Proof. apply List.flat_map_app. Qed.

(** The trace yields what [traverse] yields. *)
Lemma traverse_trace_yields (r : RenderElement) (options : TraverseOptions) :
  yields_of (traverse_trace r options) = traverse r options.
Proof.
  revert options.
  induction r as [o t a c ab kids IH] using RenderElement_kids_ind.
  intros options. cbn [traverse traverse_trace].
  set (r := RenderElementImpl o t a c ab kids) in *.
  rewrite !yields_of_app.
  change (yields_of [Entered r]) with (@nil (RenderElement * list RenderElement)).
  rewrite app_nil_l. f_equal; [|f_equal].
  - by destruct (optional_call (opt_yield options) r).
  - destruct (optional_call (opt_descend options) r); [|done].
    clearbody r. induction IH as [|n kids Hn _ IHkids]; [done|].
    cbn [List.flat_map]. rewrite yields_of_app, IHkids. f_equal.
    destruct n as [str|e]; [done|]. cbn. apply Hn.
  - by destruct (optional_call (opt_yieldPost options) r).
Qed.

(** C5, as amended.  When the descend predicate is false everywhere (or
    absent), [traverse] yields the pair of the root and [options.path ?? []]
    once if the yield predicate matches the root and once more if the
    yieldPost predicate matches it, and nothing else; it enters no other
    element and pulls no child.  Hence, without yieldPost and path options,
    it yields exactly [[r, []]] when the yield predicate matches and nothing
    when it does not. *)
Theorem traverse_without_descent (r : RenderElement) (options : TraverseOptions) :
  (∀ e, optional_call (opt_descend options) e = false) →
  traverse r options =
    (if optional_call (opt_yield options) r then [(r, path_or_empty options)] else [])
    ++ (if optional_call (opt_yieldPost options) r
        then [(r, path_or_empty options)] else [])
  ∧ entered_of (traverse_trace r options) = [r]
  ∧ pulled_of (traverse_trace r options) = []
  ∧ (opt_yieldPost options = None → opt_path options = None →
     traverse r options =
       if optional_call (opt_yield options) r then [(r, [])] else []).
Proof.
  intros Hdescend.
  assert (Htraverse : traverse r options =
    (if optional_call (opt_yield options) r then [(r, path_or_empty options)] else [])
    ++ (if optional_call (opt_yieldPost options) r
        then [(r, path_or_empty options)] else [])).
  { destruct r as [o t a c ab kids]. cbn [traverse]. by rewrite Hdescend. }
  split; [exact Htraverse|]. split; [|split].
  - destruct r as [o t a c ab kids]. cbn [traverse_trace]. rewrite Hdescend.
    by destruct (optional_call (opt_yield options) _),
               (optional_call (opt_yieldPost options) _).
  - destruct r as [o t a c ab kids]. cbn [traverse_trace]. rewrite Hdescend.
    by destruct (optional_call (opt_yield options) _),
               (optional_call (opt_yieldPost options) _).
  - intros Hpost Hpath. rewrite Htraverse. unfold path_or_empty.
    rewrite Hpost, Hpath. cbn.
    by destruct (optional_call (opt_yield options) r).
Qed.

End TraverseFacts.

Module ForkFacts.
Import Js Elements Fork JsFacts ElementsFacts.

Lemma forked_stream_demultiplexed (forkedSymbol id : JsSymbol)
    (mixed : list RenderNode) :
  forked_stream forkedSymbol id mixed = demultiplexed forkedSymbol id mixed.
Proof.
  unfold demultiplexed.
  induction mixed as [|node rest IH]; [done|].
  destruct node as [str|e]; cbn [forked_stream until_close is_close_of]; [exact IH|].
  cbn [tagged_for].
  destruct (bool_decide (type e = ISymbol forkedSymbol)
            && js_in (KSymbol id) (attributes e)) eqn:Htag; cbn [andb].
  - destruct (truthy (js_get (attributes e) (KSymbol id))) eqn:Htruthy; cbn [negb].
    + cbn [List.filter is_append_of tagged_for].
      rewrite Htag, Htruthy. cbn. by rewrite IH.
    + reflexivity.
  - cbn [List.filter is_append_of tagged_for]. rewrite Htag. exact IH.
Qed.

(** A consumer sees the nodes tagged for it and no other: nodes of the
    main stream, appends and close markers of other forks can be removed
    from (or added to) the mixed stream without changing its stream. *)
Lemma forked_stream_own_nodes (forkedSymbol id : JsSymbol) (mixed : list RenderNode) :
  forked_stream forkedSymbol id mixed =
    forked_stream forkedSymbol id (List.filter (tagged_for forkedSymbol id) mixed).
Proof.
  induction mixed as [|node rest IH]; [done|].
  destruct node as [str|e]; cbn [forked_stream List.filter tagged_for]; [exact IH|].
  destruct (bool_decide (type e = ISymbol forkedSymbol)
            && js_in (KSymbol id) (attributes e)) eqn:Htag.
  - cbn [forked_stream]. rewrite Htag.
    destruct (truthy (js_get (attributes e) (KSymbol id))); [by rewrite IH | done].
  - exact IH.
Qed.

Lemma forked_stream_skip (forkedSymbol id : JsSymbol) (node : RenderNode)
    (rest : list RenderNode) :
  tagged_for forkedSymbol id node = false →
  forked_stream forkedSymbol id (node :: rest) = forked_stream forkedSymbol id rest.
Proof.
  intros Htag. destruct node as [str|e]; [done|].
  cbn [forked_stream]. cbn [tagged_for] in Htag. by rewrite Htag.
Qed.

Lemma main_stream_filter (forkedSymbol : JsSymbol) (mixed : list RenderNode) :
  main_stream forkedSymbol mixed =
    List.filter (fun node => negb (is_forked forkedSymbol node)) mixed.
Proof.
  induction mixed as [|node rest IH]; [done|].
  cbn [main_stream List.filter].
  destruct (is_forked forkedSymbol node); cbn [negb]; by rewrite IH.
Qed.

Lemma main_stream_not_forked (forkedSymbol : JsSymbol) (mixed : list RenderNode) :
  Forall (fun node => is_forked forkedSymbol node = false)
    (main_stream forkedSymbol mixed).
Proof.
  induction mixed as [|node rest IH]; [constructor|].
  cbn [main_stream]. destruct (is_forked forkedSymbol node) eqn:Hf; [exact IH|].
  by constructor.
Qed.

Lemma tag_record_lookup (id id' : JsSymbol) (b : bool) (children : list Node) :
  propsToPass (Some {[ KSymbol id' := AnyNode (NBoolean b) ]}) children
    !! KSymbol id
  = if decide (id' = id) then Some (AnyNode (NBoolean b)) else None.
Proof.
  rewrite propsToPass_lookup. rewrite decide_False by done. cbn.
  destruct (decide (id' = id)) as [->|Hne].
  - apply lookup_singleton_eq.
  - apply lookup_singleton_ne. congruence.
Qed.

Lemma tag_record_in (id id' : JsSymbol) (b : bool) (children : list Node) :
  js_in (KSymbol id)
    (propsToPass (Some {[ KSymbol id' := AnyNode (NBoolean b) ]}) children)
  = bool_decide (id' = id).
Proof.
  unfold js_in. rewrite tag_record_lookup.
  destruct (decide (id' = id)) as [->|Hne].
  - rewrite !bool_decide_eq_true_2; [done..|by eexists].
  - rewrite !bool_decide_eq_false_2; [done..|by intros [? ?]].
Qed.

Lemma tag_record_get (id : JsSymbol) (b : bool) (children : list Node) :
  js_get (propsToPass (Some {[ KSymbol id := AnyNode (NBoolean b) ]}) children)
    (KSymbol id)
  = AnyNode (NBoolean b).
Proof. unfold js_get. rewrite tag_record_lookup. by rewrite decide_True. Qed.

(** The element [append(node)], once invoked, is a fork element that is an
    append of its own identifier only; its payload is the render of the
    flattened [node]. *)
Lemma fork_append_invoked `{Runtime} (forkedSymbol id id' : JsSymbol) (node : Node)
    (ctx : ComponentContext) (s : Store) :
  ∃ r s',
    invoke (fork_append forkedSymbol id' node) ctx s =
      (Normal (RenderableNode (NRender r)), s')
    ∧ is_forked forkedSymbol (RNElement r) = true
    ∧ is_append_of forkedSymbol id (RNElement r) = bool_decide (id' = id)
    ∧ is_close_of forkedSymbol id (RNElement r) = false
    ∧ payload (RNElement r) =
        RNElement <$> (mapM (fun c => render ctx (RenderableNode c) None)
                         (flat_node node) s).1.
Proof.
  eexists _, _. unfold fork_append. rewrite invoke_intrinsic.
  split; [reflexivity|].
  cbn [is_forked is_append_of is_close_of tagged_for type attributes payload
       asyncChildNodes].
  rewrite !bool_decide_eq_true_2 by done. cbn [andb].
  rewrite tag_record_in.
  split; [done|].
  assert (Hflat : flat_infinity [node] = flat_node node).
  { unfold flat_infinity. cbn. apply app_nil_r. }
  rewrite Hflat.
  case_bool_decide as Hid; [subst id'; rewrite tag_record_get|]; by cbn.
Qed.

(** The element [close()], once invoked, is the close marker of its own
    identifier only, and has no payload. *)
Lemma fork_close_invoked `{Runtime} (forkedSymbol id id' : JsSymbol)
    (ctx : ComponentContext) (s : Store) :
  ∃ r s',
    invoke (fork_close forkedSymbol id') ctx s =
      (Normal (RenderableNode (NRender r)), s')
    ∧ is_forked forkedSymbol (RNElement r) = true
    ∧ is_close_of forkedSymbol id (RNElement r) = bool_decide (id' = id)
    ∧ is_append_of forkedSymbol id (RNElement r) = false
    ∧ payload (RNElement r) = [].
Proof.
  eexists _, _. unfold fork_close. rewrite invoke_intrinsic.
  split; [reflexivity|].
  cbn [is_forked is_append_of is_close_of tagged_for type attributes payload
       asyncChildNodes].
  rewrite !bool_decide_eq_true_2 by done. cbn [andb].
  rewrite tag_record_in.
  split; [done|].
  case_bool_decide as Hid; [subst id'; rewrite tag_record_get|]; by cbn.
Qed.

(** The stream of a fork grows with the mixed stream: what the consumer
    has yielded on a prefix of the mixed stream is a prefix of what it
    yields in the end. *)
Lemma forked_stream_prefix (forkedSymbol id : JsSymbol) (seen later : list RenderNode) :
  ∃ more, forked_stream forkedSymbol id (seen ++ later)
          = forked_stream forkedSymbol id seen ++ more.
Proof.
  induction seen as [|node seen [more IH]].
  - by eexists.
  - destruct node as [str|e]; cbn [app forked_stream].
    + by exists more.
    + destruct (_ && _); [|by exists more].
      destruct (truthy _); [|by exists []].
      exists more. by rewrite IH, app_assoc.
Qed.

(** C4. The stream of the fork [id] is the payloads of the nodes appended
    with [id], in order, up to the close marker of [id]; it depends on the
    nodes tagged for [id] only, so that appends and close markers of other
    forks and the nodes of the main stream do not show in it; the elements
    [append] and [close] build are recognised by the fork whose identifier
    they carry and by no other; the main stream is the mixed stream without
    the nodes whose type is the fork symbol. *)
Theorem fork_demultiplexes `{Runtime} (forkedSymbol id : JsSymbol)
    (mixed : list RenderNode) :
  forked_stream forkedSymbol id mixed = demultiplexed forkedSymbol id mixed
  ∧ forked_stream forkedSymbol id mixed =
      forked_stream forkedSymbol id (List.filter (tagged_for forkedSymbol id) mixed)
  ∧ (∀ id' node ctx s, ∃ r s',
       invoke (fork_append forkedSymbol id' node) ctx s =
         (Normal (RenderableNode (NRender r)), s')
       ∧ is_forked forkedSymbol (RNElement r) = true
       ∧ is_append_of forkedSymbol id (RNElement r) = bool_decide (id' = id)
       ∧ is_close_of forkedSymbol id (RNElement r) = false
       ∧ payload (RNElement r) =
           RNElement <$> (mapM (fun c => render ctx (RenderableNode c) None)
                            (flat_node node) s).1)
  ∧ (∀ id' ctx s, ∃ r s',
       invoke (fork_close forkedSymbol id') ctx s =
         (Normal (RenderableNode (NRender r)), s')
       ∧ is_forked forkedSymbol (RNElement r) = true
       ∧ is_close_of forkedSymbol id (RNElement r) = bool_decide (id' = id)
       ∧ is_append_of forkedSymbol id (RNElement r) = false
       ∧ payload (RNElement r) = [])
  ∧ main_stream forkedSymbol mixed =
      List.filter (fun node => negb (is_forked forkedSymbol node)) mixed
  ∧ Forall (fun node => is_forked forkedSymbol node = false)
      (main_stream forkedSymbol mixed).
Proof.
  split; [apply forked_stream_demultiplexed|].
  split; [apply forked_stream_own_nodes|].
  split; [intros; apply fork_append_invoked|].
  split; [intros; apply fork_close_invoked|].
  split; [apply main_stream_filter | apply main_stream_not_forked].
Qed.

End ForkFacts.

Module AbortFacts.
Import Abort.

Lemma run_app (e : Evaluator) (l1 l2 : list Event) :
  run e (l1 ++ l2) = run (run e l1) l2.
Proof. apply fold_left_app. Qed.

Lemma run_cons (e : Evaluator) (ev : Event) (l : list Event) :
  run e (ev :: l) = run (step e ev) l.
Proof. reflexivity. Qed.

(** Once aborted, the evaluator is in a terminal state. *)
Lemma step_terminal (e : Evaluator) (ev : Event) :
  aborted e = true → complete e = true → step e ev = e.
Proof.
  destruct e as [l p n a c]. cbn. intros -> ->. by destruct ev.
Qed.

Lemma run_terminal (e : Evaluator) (schedule : list Event) :
  aborted e = true → complete e = true → run e schedule = e.
Proof.
  intros Ha Hc. induction schedule as [|ev schedule IH]; [done|].
  cbn. rewrite step_terminal by done. exact IH.
Qed.

(** [k] pulls on a sequence that still has [k] items. *)
Lemma run_advance (seen : option string) (items : list string) (n k : nat) :
  k ≤ length items →
  run {| last_seen := seen; pending := items; pulls := n;
         aborted := false; complete := false |} (replicate k Advance)
  = {| last_seen := match k with 0 => seen | S j => items !! j end;
       pending := drop k items; pulls := n + k;
       aborted := false; complete := false |}.
Proof.
  revert seen items n. induction k as [|k IH]; intros seen items n Hk.
  - cbn. rewrite drop_0. do 2 f_equal. lia.
  - destruct items as [|item items]; cbn in Hk; [lia|].
    cbn [replicate]. rewrite run_cons.
    cbn [step complete aborted orb pending last_seen pulls].
    rewrite IH by lia. cbn [drop]. f_equal; first [lia | by destruct k].
Qed.

(** Aborting after [k] pulls completes the evaluator with the [k]-th item,
    whatever the event loop delivers afterwards. *)
Lemma abort_after_pulls (items : list string) (k : nat) (rest : list Event) :
  k ≤ length items →
  run (start items) (replicate k Advance ++ AbortSignalled :: rest)
  = {| last_seen := match k with 0 => None | S j => items !! j end;
       pending := drop k items; pulls := k;
       aborted := true; complete := true |}.
Proof.
  intros Hk. rewrite run_app. unfold start. rewrite run_advance by done.
  rewrite run_cons. cbn [step last_seen pending pulls].
  by rewrite run_terminal.
Qed.

(** C8. A leaf yields "a", "ab", "abc".  If the abort is signalled after
    "ab" was pulled and before "abc" is, the evaluator is complete with
    "ab" as its last value, and whatever the event loop does next it pulls
    nothing more: two pulls were made and "abc" stays in the sequence. *)
Theorem abort_between_ab_and_abc (rest : list Event) :
  let final :=
    run (start ["a"; "ab"; "abc"]) ([Advance; Advance; AbortSignalled] ++ rest) in
  last_seen final = Some "ab"
  ∧ complete final = true
  ∧ aborted final = true
  ∧ pulls final = 2
  ∧ pending final = ["abc"].
Proof.
  intros final. subst final.
  change ([Advance; Advance; AbortSignalled] ++ rest)
    with (replicate 2 Advance ++ AbortSignalled :: rest).
  rewrite abort_after_pulls by (cbn; lia). by cbn.
Qed.

End AbortFacts.

Module Checks.
Import Js Elements Logging Contexts Replace Traverse Fork Abort Samples.
Import JsFacts ElementsFacts ContextsFacts ReplaceFacts TraverseFacts ForkFacts AbortFacts.

Example flat_infinity_nested :
  flat_infinity [NString "a"; NArray [NNull; NArray [NArray []; NString "b"]]; NBoolean true]
  = [NString "a"; NNull; NString "b"; NBoolean true].
Proof. reflexivity. Qed.

Example invoke_intrinsic_sample :
  (@invoke sample_runtime
     (createElement (TIntrinsic (IString "p")) (Some sample_props)
        [NArray [NString "a"; NArray [NString "b"]]])
     sample_context 3).1
  = Normal (RenderableNode (NRender
      (RenderElementImpl 5 (IString "p")
         (propsToPass (Some sample_props) [NArray [NString "a"; NArray [NString "b"]]])
         sample_context (Some 7)
         [RNElement (RenderElementImpl 3 (IString "text") ∅ sample_context None
                       [RNString "a"]);
          RNElement (RenderElementImpl 4 (IString "text") ∅ sample_context None
                       [RNString "b"])]))).
Proof. reflexivity. Qed.

Example traverse_descending :
  traverse sample_root options_descend
  = [(sample_root, []); (sample_leaf, [sample_root]); (sample_sibling, [sample_root])].
Proof. reflexivity. Qed.

Example forked_stream_sample :
  forked_stream 5%positive 11%positive sample_mixed
    = [RNString "a1"; RNString "a2"]
  ∧ forked_stream 5%positive 12%positive sample_mixed
    = [RNString "b1"; RNString "b2"]
  ∧ main_stream 5%positive sample_mixed
    = [RNString "main-1"; RNElement sample_leaf; RNString "main-2"].
Proof. vm_compute. done. Qed.

Example replaceSubtree_sample :
  asyncChildNodes (replaceSubtree sample_root [sample_leaf] (pure_replacer upper) 10).1
  = [RNElement (RenderElementImpl 11 (IString "leaf") ∅ sample_context None
                  [RNString "replaced"]);
     RNString "between"; RNElement sample_sibling].
Proof. reflexivity. Qed.

(** C10 as stated fails: called without children on props that carry a
    [children] key, [createElement] keeps that key. *)
Lemma propsToPass_no_children_counterexample :
  length (@nil Node) = 0
  ∧ propsToPass (Some props_with_children) [] !! children_key
    = Some (AnyNode (NString "kept"))
  ∧ propsToPass (Some props_with_children) [] !! children_key ≠ None.
Proof.
  split; [reflexivity|].
  assert (Hkept : propsToPass (Some props_with_children) [] !! children_key
                  = Some (AnyNode (NString "kept")))
    by (vm_compute; reflexivity).
  split; [exact Hkept|]. rewrite Hkept. discriminate.
Qed.

(** C10, amended, on a sample call. *)
Lemma propsToPass_shape_witness :
  2 ≤ length [NString "a"; NString "b"]
  ∧ propsToPass (Some sample_props) [NString "a"; NString "b"] !! children_key
    = Some (AnyNode (NArray [NString "a"; NString "b"])).
Proof.
  assert (Hlen : 2 ≤ length [NString "a"; NString "b"]) by (cbn; lia).
  split; [exact Hlen|].
  destruct (@propsToPass_shape sample_runtime (TIntrinsic (IString "div"))
              (Some sample_props) [NString "a"; NString "b"])
    as (_ & _ & _ & _ & Hmany & _).
  exact (Hmany Hlen).
Defined.

(** C2 on a sample heap. *)
Lemma setContext_derives_witness :
  sample_rc ∈ dom sample_heap
  ∧ getContext (setContext sample_heap sample_rc sample_key (AnyNode (NString "v"))).2
      (setContext sample_heap sample_rc sample_key (AnyNode (NString "v"))).1
      sample_key = AnyNode (NString "v")
  ∧ getContext (setContext sample_heap sample_rc sample_key (AnyNode (NString "v"))).2
      sample_rc sample_key = getContext sample_heap sample_rc sample_key.
Proof.
  assert (Hrc : sample_rc ∈ dom sample_heap).
  { apply elem_of_dom. eexists. vm_compute. reflexivity. }
  split; [exact Hrc|].
  destruct (setContext_derives sample_heap sample_rc sample_key
              (AnyNode (NString "v")) Hrc) as (_ & Hbound & _ & Hsame & _).
  split; [exact Hbound | exact (Hsame sample_key)].
Defined.

(** C5 as stated fails: with a yieldPost predicate the root is yielded
    twice, and with a path option the pair does not carry the empty path. *)
Lemma traverse_descend_false_counterexample :
  (∀ e, optional_call (opt_descend options_yield_and_post) e = false)
  ∧ optional_call (opt_yield options_yield_and_post) sample_root = true
  ∧ traverse sample_root options_yield_and_post
    = [(sample_root, []); (sample_root, [])]
  ∧ traverse sample_root options_yield_and_post ≠ [(sample_root, [])]
  ∧ (∀ e, optional_call (opt_descend options_with_path) e = false)
  ∧ optional_call (opt_yield options_with_path) sample_root = true
  ∧ traverse sample_root options_with_path = [(sample_root, [sample_sibling])]
  ∧ traverse sample_root options_with_path ≠ [(sample_root, [])].
Proof.
  repeat split; try reflexivity.
  - change (traverse sample_root options_yield_and_post)
      with [(sample_root, @nil RenderElement); (sample_root, [])].
    discriminate.
  - change (traverse sample_root options_with_path)
      with [(sample_root, [sample_sibling])].
    discriminate.
Qed.

(** C5, amended, on the sample tree. *)
Lemma traverse_without_descent_witness :
  (∀ e, optional_call (opt_descend options_yield_and_post) e = false)
  ∧ entered_of (traverse_trace sample_root options_yield_and_post) = [sample_root]
  ∧ pulled_of (traverse_trace sample_root options_yield_and_post) = [].
Proof.
  assert (Hnever : ∀ e, optional_call (opt_descend options_yield_and_post) e = false)
    by (intros e; reflexivity).
  split; [exact Hnever|].
  destruct (traverse_without_descent sample_root options_yield_and_post Hnever)
    as (_ & Hentered & Hpulled & _).
  split; [exact Hentered | exact Hpulled].
Defined.

(** C6 on the sample tree: the sibling of the path element stays. *)
Lemma replaceSubtree_frame_witness :
  asyncChildNodes sample_root !! 2 = Some (RNElement sample_sibling)
  ∧ asyncChildNodes
      (replaceSubtree sample_root [sample_leaf] (pure_replacer upper) 10).1 !! 2
    = Some (RNElement sample_sibling).
Proof.
  split; [reflexivity|].
  destruct (replaceSubtree_frame sample_root [sample_leaf] (pure_replacer upper) 10)
    as (_ & _ & _ & _ & _ & Hkids).
  exact (Hkids 2 (RNElement sample_sibling) eq_refl).
Defined.

(** C7 on the sample tree. *)
Lemma replace_maps_children_witness :
  oid sample_root < 10
  ∧ oid (replace sample_root (pure_replacer upper) 10).1 ≠ oid sample_root.
Proof.
  assert (Hold : oid sample_root < 10) by (cbn; lia).
  split; [exact Hold|].
  destruct (replace_maps_children sample_root upper 10) as (_ & Hnew & _).
  exact (Hnew Hold).
Defined.

End Checks.

Module InvocationChecks.
Import Js Elements Samples Invocation InvocationSamples InvocationFacts.

Example invoke_element_renders :
  @invoke_element sample_callees
    (createElement (TIntrinsic (IString "p")) None
       [NString "a"; NArray [NArray []; NArray [NNull]]; NString "b"])
    sample_context 0
  = (Normal (RenderableNode (NRender
       (RenderElementImpl 3 (IString "p")
          {[ KString "children" :=
               AnyNode (NArray [NString "a"; NArray [NArray []; NArray [NNull]];
                                NString "b"]) ]}
          sample_context (Some 7)
          [RNElement (RenderElementImpl 0 (IString "text") ∅ sample_context None []);
           RNElement (RenderElementImpl 1 (IString "text") ∅ sample_context None []);
           RNElement (RenderElementImpl 2 (IString "text") ∅ sample_context None [])]))),
     4).
Proof. vm_compute. reflexivity. Qed.

(** A function tag: the invocation is the call of the component, here
    one that hands back the only child. *)
Example invoke_element_component :
  @invoke_element sample_callees
    (createElement (TComponent 0) None [NString "a"]) sample_context 0
  = (Normal (RenderableNode (NString "a")), 0).
Proof. vm_compute. reflexivity. Qed.

(** The constructor is the last callee to run: when it throws, the
    children have been rendered. *)
Example invoke_element_constructor_throws :
  @invoke_element failing_constructor
    (createElement (TIntrinsic (IString "p")) None [NString "a"; NString "b"])
    sample_context 0
  = (Throw render_error, 2).
Proof. vm_compute. reflexivity. Qed.



End InvocationChecks.

Module LineageFacts.
Import Js Replace Traverse Lineage JsFacts ReplaceFacts TraverseFacts.

Lemma with_path_predicates (options : TraverseOptions) (p : list RenderElement) :
  opt_yield (with_path options p) = opt_yield options
  ∧ opt_yieldPost (with_path options p) = opt_yieldPost options
  ∧ opt_descend (with_path options p) = opt_descend options
  ∧ path_or_empty (with_path options p) = p.
Proof. done. Qed.

(** One level of [traverse]: a yielded pair is the root itself, or comes
    from the traversal of a child element. *)
Lemma traverse_In_inv (r : RenderElement) (options : TraverseOptions)
    (e : RenderElement) (path : list RenderElement) :
  In (e, path) (traverse r options) →
  (e = r ∧ path = path_or_empty options
   ∧ (optional_call (opt_yield options) r = true
      ∨ optional_call (opt_yieldPost options) r = true))
  ∨ (optional_call (opt_descend options) r = true
     ∧ ∃ c, In (RNElement c) (asyncChildNodes r)
            ∧ In (e, path)
                (traverse c (with_path options (path_or_empty options ++ [r])))).
Proof.
  destruct r as [o t a c ab kids]. cbn [traverse asyncChildNodes].
  set (r := RenderElementImpl o t a c ab kids).
  rewrite !in_app_iff. intros [Hpre | [Hkids | Hpost]].
  - left. destruct (optional_call (opt_yield options) r) eqn:Hy; [|done].
    destruct Hpre as [[= <- <-]|[]]. auto.
  - right. destruct (optional_call (opt_descend options) r); [|done].
    split; [done|]. apply in_flat_map in Hkids as [child [Hchild Hin]].
    destruct child as [str|c']; [done|]. by exists c'.
  - left. destruct (optional_call (opt_yieldPost options) r) eqn:Hy; [|done].
    destruct Hpost as [[= <- <-]|[]]. auto.
Qed.

(** Every pair [traverse] yields holds an element that matches the yield
    or the yieldPost predicate, and the path of the pair is the initial path
    followed by the chain of its ancestors from the root down, each of which
    the descend predicate accepted. *)
Theorem traverse_yields_lineage (r : RenderElement) (options : TraverseOptions)
    (e : RenderElement) (path : list RenderElement) :
  In (e, path) (traverse r options) →
  (optional_call (opt_yield options) e = true
   ∨ optional_call (opt_yieldPost options) e = true)
  ∧ ∃ p, path = path_or_empty options ++ p
         ∧ descends r p e
         ∧ Forall (fun a => optional_call (opt_descend options) a = true) p.
Proof.
  revert options path.
  induction r as [o t a c ab kids IH] using RenderElement_kids_ind.
  intros options path Hin.
  apply traverse_In_inv in Hin as [(-> & -> & Hmatch) | (Hdesc & c' & Hchild & Hin)].
  - split; [exact Hmatch|]. exists []. rewrite app_nil_r.
    repeat split; constructor.
  - cbn [asyncChildNodes] in Hchild.
    rewrite List.Forall_forall in IH. specialize (IH _ Hchild). cbn in IH.
    destruct (IH _ _ Hin) as (Hmatch & p & Hpath & Hp & Hall).
    change (path_or_empty (with_path options ?q)) with q in Hpath. subst path.
    split; [exact Hmatch|].
    exists (RenderElementImpl o t a c ab kids :: p).
    split; [by rewrite <- app_assoc|].
    split; [by apply descends_child with c' | by constructor].
Qed.

(** Paths only grow on the way down. *)
Lemma traverse_path_prefix (r : RenderElement) (options : TraverseOptions)
    (e : RenderElement) (path : list RenderElement) :
  In (e, path) (traverse r options) → ∃ p, path = path_or_empty options ++ p.
Proof.
  revert options path.
  induction r as [o t a c ab kids IH] using RenderElement_kids_ind.
  intros options path Hin.
  apply traverse_In_inv in Hin as [(_ & -> & _) | (_ & c' & Hchild & Hin)].
  - exists []. by rewrite app_nil_r.
  - cbn [asyncChildNodes] in Hchild.
    rewrite List.Forall_forall in IH. specialize (IH _ Hchild). cbn in IH.
    destruct (IH _ _ Hin) as (p & Hpath).
    change (path_or_empty (with_path options ?q)) with q in Hpath. subst path.
    eexists. by rewrite <- app_assoc.
Qed.

(** A path yielded below the root continues the initial path with the
    root. *)
Lemma traverse_path_head (r : RenderElement) (options : TraverseOptions)
    (e : RenderElement) (path : list RenderElement) :
  In (e, path) (traverse r options) →
  path = path_or_empty options
  ∨ ∃ rest, path = path_or_empty options ++ r :: rest.
Proof.
  intros Hin.
  apply traverse_In_inv in Hin as [(_ & -> & _) | (_ & c & _ & Hin)]; [by left|].
  right. apply traverse_path_prefix in Hin as [p Hpath].
  change (path_or_empty (with_path options ?q)) with q in Hpath. subst path.
  exists p. by rewrite <- app_assoc.
Qed.

(** The paths of [traverse] begin at the root itself, while
    [replaceSubtree] looks for the head of its path among the children of
    the element it is given: handed a non-empty path that [traverse]
    yielded for the same root (started without a path option),
    [replaceSubtree] finds no child to descend into, never calls the
    replacer, and returns a copy of the root with the children it had. *)
Theorem replaceSubtree_traverse_path (root : RenderElement)
    (options : TraverseOptions) (e : RenderElement) (path : list RenderElement)
    (replacer : RenderNode → Eff RenderNode) (s : Store) :
  opt_path options = None →
  In (e, path) (traverse root options) →
  path ≠ [] →
  Forall (fun node => strict_eq node root = false) (asyncChildNodes root) →
  replaceSubtree root path replacer s =
    (RenderElementImpl s (type root) (attributes root) (renderContext root)
       (abortSignal root) (asyncChildNodes root), S s).
Proof.
  intros Hnone Hin Hpath Hself.
  apply traverse_path_head in Hin. unfold path_or_empty in Hin.
  rewrite Hnone in Hin. cbn in Hin.
  destruct Hin as [->|[rest ->]]; [done|].
  by apply replaceSubtree_miss.
Qed.

Lemma map_fst_flat_map {A B C} (f : A → list (B * C)) (l : list A) :
  map fst (List.flat_map f l) = List.flat_map (fun x => map fst (f x)) l.
Proof.
  induction l as [|x l IH]; [done|]. cbn. by rewrite map_app, IH.
Qed.

Lemma filter_flat_map {A B} (p : B → bool) (f : A → list B) (l : list A) :
  List.filter p (List.flat_map f l) = List.flat_map (fun x => List.filter p (f x)) l.
Proof.
  induction l as [|x l IH]; [done|]. cbn. by rewrite List.filter_app, IH.
Qed.

Lemma flat_map_ext_Forall {A B} (f g : A → list B) (l : list A) :
  Forall (fun x => f x = g x) l → List.flat_map f l = List.flat_map g l.
Proof. induction 1 as [|x l Hx _ IH]; [done|]. cbn. by rewrite Hx, IH. Qed.

(** With a descend predicate that accepts every element, [traverse] walks
    the whole tree: with a yield predicate alone it yields the matching
    elements in pre-order (parents first), with a yieldPost predicate alone
    the matching elements in post-order (children first). *)
Theorem traverse_full_descent (r : RenderElement) (options : TraverseOptions) :
  (∀ e, optional_call (opt_descend options) e = true) →
  ((∀ e, optional_call (opt_yieldPost options) e = false) →
   map fst (traverse r options)
   = List.filter (optional_call (opt_yield options)) (elements_preorder r))
  ∧ ((∀ e, optional_call (opt_yield options) e = false) →
     map fst (traverse r options)
     = List.filter (optional_call (opt_yieldPost options)) (elements_postorder r)).
Proof.
  intros Hdescend. split.
  - intros Hpost. revert options Hdescend Hpost.
    induction r as [o t a c ab kids IH] using RenderElement_kids_ind.
    intros options Hdescend Hpost.
    cbn [traverse elements_preorder]. set (r := RenderElementImpl o t a c ab kids).
    rewrite Hdescend, Hpost, app_nil_r, map_app, map_fst_flat_map.
    cbn [List.filter]. rewrite filter_flat_map.
    assert (Hkids :
      List.flat_map
        (fun child => map fst
           match child with
           | RNString _ => []
           | RNElement c0 =>
               traverse c0 (with_path options (path_or_empty options ++ [r]))
           end) kids
      = List.flat_map
          (fun child => List.filter (optional_call (opt_yield options))
             match child with
             | RNString _ => []
             | RNElement c0 => elements_preorder c0
             end) kids).
    { apply flat_map_ext_Forall. eapply List.Forall_impl; [|exact IH].
      intros [str|c0] Hc0; [done|].
      exact (Hc0 (with_path options _) Hdescend Hpost). }
    rewrite Hkids. by destruct (optional_call (opt_yield options) r).
  - intros Hpre. revert options Hdescend Hpre.
    induction r as [o t a c ab kids IH] using RenderElement_kids_ind.
    intros options Hdescend Hpre.
    cbn [traverse elements_postorder]. set (r := RenderElementImpl o t a c ab kids).
    rewrite Hdescend, Hpre, app_nil_l, map_app, map_fst_flat_map.
    rewrite List.filter_app, filter_flat_map. cbn [List.filter].
    assert (Hkids :
      List.flat_map
        (fun child => map fst
           match child with
           | RNString _ => []
           | RNElement c0 =>
               traverse c0 (with_path options (path_or_empty options ++ [r]))
           end) kids
      = List.flat_map
          (fun child => List.filter (optional_call (opt_yieldPost options))
             match child with
             | RNString _ => []
             | RNElement c0 => elements_postorder c0
             end) kids).
    { apply flat_map_ext_Forall. eapply List.Forall_impl; [|exact IH].
      intros [str|c0] Hc0; [done|].
      exact (Hc0 (with_path options _) Hdescend Hpre). }
    rewrite Hkids. by destruct (optional_call (opt_yieldPost options) r).
Qed.

End LineageFacts.

Module CompositionFacts.
Import Js Elements Replace Fork JsFacts ElementsFacts ReplaceFacts ForkFacts.

Lemma replace_pure_run (r : RenderElement) (f : RenderNode → RenderNode) (s : Store) :
  replace r (pure_replacer f) s =
    (RenderElementImpl s (type r) (attributes r) (renderContext r) (abortSignal r)
       (f <$> asyncChildNodes r), S s).
Proof. rewrite replace_run. unfold pure_replacer. by rewrite mapM_ret. Qed.

(** Two replacements in a row are one replacement by the composed
    replacer: the result has the type, attributes, context and abort signal
    of the first element and its children are [g (f node)] in order; the two
    steps allocate two elements.  Replacing with the identity gives an
    element with the same children. *)
Theorem replace_compose (r : RenderElement) (f g : RenderNode → RenderNode)
    (s : Store) :
  let first := replace r (pure_replacer f) s in
  let second := replace first.1 (pure_replacer g) first.2 in
  asyncChildNodes second.1 = (fun node => g (f node)) <$> asyncChildNodes r
  ∧ asyncChildNodes second.1
    = asyncChildNodes (replace r (pure_replacer (fun node => g (f node))) s).1
  ∧ type second.1 = type r
  ∧ attributes second.1 = attributes r
  ∧ renderContext second.1 = renderContext r
  ∧ abortSignal second.1 = abortSignal r
  ∧ second.2 = S (S s)
  ∧ asyncChildNodes (replace r (pure_replacer (fun node => node)) s).1
    = asyncChildNodes r.
Proof.
  intros first second. subst first second.
  rewrite !replace_pure_run.
  cbn [fst snd asyncChildNodes type attributes renderContext abortSignal].
  rewrite <- list_fmap_compose, list_fmap_id.
  by repeat split.
Qed.

(** The element [createNode().node] has the fork symbol as its type and
    carries its identifier under the fork symbol, not under the identifier
    itself.  When it arrives as a direct child of the mixed element it is
    therefore shown by no stream: the main stream skips it, and so does the
    consumer of every fork. *)
Theorem fork_node_hidden (forkedSymbol id id' : JsSymbol)
    (context : ComponentContext) (mixed rest : list RenderNode) (s : Store) :
  let node := RNElement (fork_node forkedSymbol id context mixed s).1 in
  payload node = forked_stream forkedSymbol id mixed
  ∧ main_stream forkedSymbol (node :: rest) = main_stream forkedSymbol rest
  ∧ (id' ≠ forkedSymbol →
     forked_stream forkedSymbol id' (node :: rest)
     = forked_stream forkedSymbol id' rest).
Proof.
  intros node. subst node. unfold fork_node.
  rewrite new_RenderElementImpl_run. cbn [fst payload asyncChildNodes ret].
  split; [done|]. split.
  - cbn [main_stream is_forked type]. by rewrite bool_decide_eq_true_2.
  - intros Hid. apply forked_stream_skip.
    cbn [tagged_for type attributes]. rewrite bool_decide_eq_true_2 by done.
    cbn [andb]. unfold js_in. apply bool_decide_eq_false_2.
    rewrite lookup_singleton_ne by congruence. by intros [? ?].
Qed.

(** Two or more children can be passed as separate arguments or as one
    array: the component receives the same record, and an intrinsic element
    renders to the same result. *)
Theorem createElement_array_children `{Runtime} (tag : Tag) (props : option Props)
    (children : list Node) (ctx : ComponentContext) (s : Store) :
  2 ≤ length children →
  element_props (createElement tag props [NArray children])
  = element_props (createElement tag props children)
  ∧ invoke (createElement tag props [NArray children]) ctx s
    = invoke (createElement tag props children) ctx s.
Proof.
  intros Hlen.
  assert (Hprops : propsToPass props [NArray children] = propsToPass props children).
  { destruct children as [|c1 [|c2 l]]; cbn in Hlen; [lia | lia | done]. }
  split; [exact Hprops|].
  destruct tag as [c|t].
  - rewrite !invoke_component. by rewrite Hprops.
  - rewrite !invoke_intrinsic. rewrite Hprops.
    by rewrite flat_infinity_array, app_nil_r.
Qed.

End CompositionFacts.

Module LoggerFacts.
Import Js Logging Logger.

Lemma use_logger_recording (component : option Tag) (props : option Props)
    (renderId : string) (u : LoggerUse) (calls : list LogCall) :
  use_logger (@LogImplementation_bind _ recording component props renderId) calls u
  = calls ++ [ {| call_level := use_level u; call_component := component;
                  call_props := props; call_renderId := renderId;
                  call_metadataOrMessage := use_obj u;
                  call_message := use_msg u |} ].
Proof. destruct u as [[] obj msg]; reflexivity. Qed.

(** A logger made by [bind] attributes everything to the component, props
    and render id it was bound to: whatever methods are used, the sink
    receives one call per use, in order, at the level named by the method
    and with the bound component, props and render id. *)
Theorem bound_logger_attribution (component : option Tag) (props : option Props)
    (renderId : string) (uses : list LoggerUse) (calls : list LogCall) :
  use_logger_all (@LogImplementation_bind _ recording component props renderId)
    uses calls
  = calls ++ map (fun u => {| call_level := use_level u;
                              call_component := component;
                              call_props := props;
                              call_renderId := renderId;
                              call_metadataOrMessage := use_obj u;
                              call_message := use_msg u |}) uses.
Proof.
  unfold use_logger_all. revert calls.
  induction uses as [|u uses IH]; intros calls; cbn [fold_left map].
  - by rewrite app_nil_r.
  - rewrite use_logger_recording, IH. by rewrite <- app_assoc.
Qed.

End LoggerFacts.

Module CliFacts.
Import Stdlib.Strings.Ascii.
Import Cli.

Lemma split_on_nonempty (sep : Ascii.ascii) (s : string) : split_on sep s ≠ [].
Proof.
  induction s as [|c rest IH]; cbn [split_on]; [done|].
  case_decide; [done|]. by destruct (split_on sep rest).
Qed.

(** Without the separator there is one piece. *)
Lemma split_on_absent (sep : Ascii.ascii) (s : string) :
  has_char sep s = false → split_on sep s = [s].
Proof.
  induction s as [|c rest IH]; cbn [split_on has_char]; [done|].
  intros [Hc Hrest]%orb_false_iff. apply bool_decide_eq_false in Hc.
  rewrite decide_False by done. by rewrite IH.
Qed.

(** The first piece ends at the first separator. *)
Lemma split_on_first (sep : Ascii.ascii) (k v : string) :
  has_char sep k = false →
  split_on sep (k +:+ String sep v) = k :: split_on sep v.
Proof.
  induction k as [|c rest IH].
  - intros _. change (EmptyString +:+ String sep v) with (String sep v).
    cbn [split_on]. by rewrite decide_True.
  - cbn [has_char]. intros [Hc Hrest]%orb_false_iff.
    apply bool_decide_eq_false in Hc.
    change (String c rest +:+ String sep v) with (String c (rest +:+ String sep v)).
    cbn [split_on]. rewrite decide_False by done. by rewrite IH.
Qed.

(** [-e KEY=VALUE] sets [KEY] to [VALUE] and [-e KEY] sets [KEY] to the
    empty string, when [KEY] and [VALUE] hold no [=]; the other variables
    keep their value. *)
Theorem env_option_assigns (key value : string) (m : option (gmap string string)) :
  has_char "="%char key = false →
  has_char "="%char value = false →
  env_option (key +:+ String "="%char value) m = <[key := value]> (default ∅ m)
  ∧ env_option key m = <[key := EmptyString]> (default ∅ m).
Proof.
  intros Hkey Hvalue. unfold env_option. split.
  - rewrite split_on_first, split_on_absent by done. reflexivity.
  - rewrite split_on_absent by done. reflexivity.
Qed.

(** A value that holds [=] is cut at its first [=]: of
    [-e KEY=FIRST=REST] only [FIRST] is kept. *)
Theorem env_option_cuts_value (key first rest : string)
    (m : option (gmap string string)) :
  has_char "="%char key = false →
  has_char "="%char first = false →
  env_option (key +:+ String "="%char (first +:+ String "="%char rest)) m
  = <[key := first]> (default ∅ m).
Proof.
  intros Hkey Hfirst. unfold env_option.
  rewrite !split_on_first by done. reflexivity.
Qed.

Lemma env_options_snoc (occurrences : list string) (v : string) :
  env_options (occurrences ++ [v]) = Some (env_option v (env_options occurrences)).
Proof. unfold env_options. by rewrite fold_left_app. Qed.

(** Repeating [-e]: the last [-e KEY=VALUE] wins for [KEY] and leaves the
    other variables as the earlier occurrences set them.  In the
    environment of the deployment, [FIXIE_API_URL] is the URL of the
    program unless an [-e] sets it, and every variable set by [-e] is
    passed on. *)
Theorem deploy_env_of_options (occurrences : list string) (key value url : string) :
  has_char "="%char key = false →
  has_char "="%char value = false →
  let env := env_options (occurrences ++ [key +:+ String "="%char value]) in
  default ∅ env !! key = Some value
  ∧ (∀ k, k ≠ key → default ∅ env !! k = default ∅ (env_options occurrences) !! k)
  ∧ (∀ k v, default ∅ env !! k = Some v → deploy_env url env !! k = Some v)
  ∧ (default ∅ env !! "FIXIE_API_URL" = None →
     deploy_env url env !! "FIXIE_API_URL" = Some url)
  ∧ deploy_env url None = {[ "FIXIE_API_URL" := url ]}.
Proof.
  intros Hkey Hvalue env. subst env. rewrite env_options_snoc.
  unfold env_option at 1 2 3 4.
  rewrite split_on_first, split_on_absent by done.
  cbn [lookup list_lookup default].
  split; [apply lookup_insert_eq|].
  split; [intros k Hk; by apply lookup_insert_ne|].
  split; [|split].
  - intros k v Hk. unfold deploy_env. cbn [default].
    by apply lookup_union_Some_l.
  - intros Hnone. unfold deploy_env. cbn [default].
    rewrite lookup_union_r by done. apply lookup_singleton_eq.
  - unfold deploy_env. cbn [default]. apply (left_id_L ∅ (∪)).
Qed.

End CliFacts.

Module SidekickFacts.
Import Js Sidekick.

(** [startsWith] of a longer prefix gives [startsWith] of a shorter one. *)
Lemma prefix_append_l (a b s : string) :
  String.prefix (a +:+ b) s = true → String.prefix a s = true.
Proof.
  revert s. induction a as [|c a IH]; intros s; [by destruct s|].
  change (String c a +:+ b) with (String c (a +:+ b)).
  destruct s as [|c' s]; cbn [String.prefix]; [done|].
  destruct (Ascii.ascii_dec c c'); [apply IH | done].
Qed.

Lemma supports_tools_is_gpt (m : string) :
  String.prefix "gpt-4" m || String.prefix "gpt-3.5" m = true →
  String.prefix "gpt" m = true.
Proof.
  intros [H|H]%orb_true_iff.
  - by apply (prefix_append_l "gpt" "-4").
  - by apply (prefix_append_l "gpt" "-3.5").
Qed.

(** [Sidekick] accepts every call without a model (the default model
    supports tools) and every call without tools.  When it throws, tools
    were given together with a model that starts neither with [gpt-4] nor
    with [gpt-3.5], and the message names that model. *)
Theorem Sidekick_guard (props : SidekickProps) :
  (model props = None →
   ∃ el, Sidekick props = Normal el ∧ ModelProvider_model el = "gpt-4-32k")
  ∧ (tools props = None →
     ∃ el, Sidekick props = Normal el
           ∧ ModelProvider_model el = default "gpt-4-32k" (model props))
  ∧ (∀ err, Sidekick props = Throw err →
       ∃ m, model props = Some m
            ∧ is_Some (tools props)
            ∧ String.prefix "gpt-4" m = false
            ∧ String.prefix "gpt-3.5" m = false
            ∧ message err
              = "Model " +:+ m
                +:+ " does not support tools. Only gpt-4 and gpt-3.5 support tools.").
Proof.
  unfold Sidekick. split; [|split].
  - intros ->. cbn. eexists. by split.
  - intros ->. rewrite bool_decide_eq_false_2 by (by intros [? ?]).
    rewrite andb_false_r. eexists. by split.
  - intros err Hthrow.
    destruct (negb _ && bool_decide _) eqn:Hguard; [|done].
    injection Hthrow as <-.
    apply andb_true_iff in Hguard as [Hmodel Htools].
    apply bool_decide_eq_true in Htools.
    destruct (model props) as [m|] eqn:Hm; [|done].
    exists m. cbn [default] in Hmodel.
    apply negb_true_iff, orb_false_iff in Hmodel as [H4 H35].
    by repeat split.
Qed.

(** Tools only ever run under the OpenAI provider: when [Sidekick] returns
    a tree with tools, [ModelProvider] puts the model of that tree under
    [OpenAI]; a tree whose model goes to [Anthropic] has no tools. *)
Theorem Sidekick_tools_provider (props : SidekickProps) (el : SidekickElement)
    (children : Node) :
  Sidekick props = Normal el →
  let provided := ModelProvider children (ModelProvider_model el) in
  chatModel provided = ModelProvider_model el
  ∧ (is_Some (UseTools_tools el) → provider provided = OpenAI)
  ∧ (provider provided = Anthropic → UseTools_tools el = None).
Proof.
  unfold Sidekick. intros Hel.
  destruct (negb _ && bool_decide _) eqn:Hguard; [done|].
  injection Hel as <-. cbn [ModelProvider_model UseTools_tools].
  set (m := default "gpt-4-32k" (model props)) in *.
  assert (Htools : is_Some (tools props) → String.prefix "gpt" m = true).
  { intros Hsome. apply supports_tools_is_gpt.
    apply andb_false_iff in Hguard as [Hneg|Hdec].
    - by apply negb_false_iff in Hneg.
    - by apply bool_decide_eq_false in Hdec. }
  unfold ModelProvider. split; [by destruct (String.prefix "gpt" m)|]. split.
  - intros Hsome. by rewrite Htools.
  - destruct (String.prefix "gpt" m) eqn:Hgpt; [done|]. intros _.
    destruct (tools props) as [t|]; [|done].
    assert (false = true) by (apply Htools; by eexists).
    congruence.
Qed.

End SidekickFacts.

Module InspectorFacts.
Import Inspector.

Lemma useInput_handler_valid (steps : list string) (key : Key) (index : option Z) :
  2 ≤ length steps →
  index_valid (steps, index) →
  index_valid (steps, useInput_handler (Z.of_nat (length steps)) key index).
Proof.
  unfold index_valid, useInput_handler, on_rightArrow, on_leftArrow. cbn.
  intros Hlen Hvalid.
  destruct (rightArrow key), (leftArrow key), index as [i|]; cbn; lia.
Qed.

Lemma inspector_step_valid (st : list string * option Z) (ev : InspectorEvent) :
  2 ≤ length st.1 →
  index_valid st →
  2 ≤ length (inspector_step st ev).1 ∧ index_valid (inspector_step st ev).
Proof.
  destruct st as [steps index]. intros Hlen Hvalid. destruct ev as [key|step].
  - split; [done|]. by apply useInput_handler_valid.
  - cbn in *. rewrite length_app. cbn. split; [lia|].
    unfold index_valid in *. cbn in *. destruct index as [i|]; [|done].
    rewrite length_app. cbn. lia.
Qed.

(** Once two steps have arrived, the frame index stays valid whatever
    keys are pressed and whatever steps are pushed afterwards: it is unset
    or names a step, and the inspector shows one of the steps. *)
Theorem inspector_index_valid (st : list string * option Z)
    (evs : list InspectorEvent) :
  2 ≤ length st.1 →
  index_valid st →
  let st' := inspector_run st evs in
  2 ≤ length st'.1
  ∧ index_valid st'
  ∧ ∃ step, step_at st'.1
              (debugFrameIndexToUse (Z.of_nat (length st'.1)) st'.2) = Some step
            ∧ code_shown st'.1 st'.2 = step.
Proof.
  intros Hlen Hvalid st'. subst st'. unfold inspector_run.
  revert st Hlen Hvalid. induction evs as [|ev evs IH]; intros st Hlen Hvalid.
  - cbn [fold_left]. split; [done|]. split; [done|].
    destruct st as [steps index]. unfold index_valid in Hvalid. cbn in *.
    unfold code_shown, step_at.
    set (i := debugFrameIndexToUse (Z.of_nat (length steps)) index).
    assert (Hi : (0 ≤ i < Z.of_nat (length steps))%Z).
    { subst i. destruct index as [i|]; cbn; lia. }
    rewrite bool_decide_eq_true_2 by lia.
    destruct (lookup_lt_is_Some_2 steps (Z.to_nat i)) as [step Hstep]; [lia|].
    exists step. by rewrite Hstep.
  - cbn [fold_left].
    destruct (inspector_step_valid st ev Hlen Hvalid) as [Hlen' Hvalid'].
    by apply IH.
Qed.

(** Pressing the left arrow first, while fewer than two steps have
    arrived, selects a negative frame index: no step is shown. *)
Theorem leftArrow_first_underflows (steps : list string) :
  length steps < 2 →
  let len := Z.of_nat (length steps) in
  let index :=
    useInput_handler len {| rightArrow := false; leftArrow := true |} None in
  index = Some (len - 2)%Z
  ∧ (len - 2 < 0)%Z
  ∧ ¬ index_valid (steps, index)
  ∧ code_shown steps index = EmptyString.
Proof.
  intros Hlen len index. subst len index. cbn.
  split; [done|]. split; [lia|]. split.
  - unfold index_valid. cbn. lia.
  - unfold code_shown, step_at. cbn. by rewrite bool_decide_eq_false_2 by lia.
Qed.

End InspectorFacts.

Module ReactBridgeFacts.
Import Js ReactBridge.

(** [useAI] unwraps every frame with [frame.map(unwrapReact)].  On a frame
    that holds only strings and elements its [stop] predicate accepts, the
    map returns normally, with one value per member: a string for a string
    and the [children] of the element for an element.  On any other frame
    it throws. *)
Theorem unwrapReact_frame (React : ComponentRef) (frame : list PartiallyRendered) :
  if forallb (stopped_at React) frame
  then ∃ vs, map_throwing (unwrapReact React) frame = Normal vs
             ∧ length vs = length frame
             ∧ (∀ i s, frame !! i = Some (PRString s) →
                  vs !! i = Some (AnyNode (NString s)))
             ∧ (∀ i e, frame !! i = Some (PRElement e) →
                  vs !! i = Some (js_get (element_props e) (KString "children")))
  else map_throwing (unwrapReact React) frame = Throw unwrapReact_error.
Proof.
  induction frame as [|p frame IH]; cbn [forallb map_throwing].
  - exists []. by repeat split.
  - destruct p as [s|e]; cbn [stopped_at unwrapReact andb stop].
    + destruct (forallb (stopped_at React) frame).
      * destruct IH as (vs & -> & Hlen & Hstr & Hel).
        exists (AnyNode (NString s) :: vs). split; [done|].
        split; [by cbn; rewrite Hlen|]. split.
        -- intros [|i] s'; cbn; [by intros [= ->] | apply Hstr].
        -- intros [|i] e'; cbn; [done | apply Hel].
      * by rewrite IH.
    + unfold stop.
      destruct (decide (element_tag e = TComponent React)) as [Htag|Htag].
      * rewrite (bool_decide_eq_true_2 _ Htag).
        rewrite bool_decide_eq_false_2 by (by intros H; apply H).
        cbn [andb]. destruct (forallb (stopped_at React) frame).
        -- destruct IH as (vs & -> & Hlen & Hstr & Hel).
           eexists. split; [done|]. split; [by cbn; rewrite Hlen|]. split.
           ++ intros [|i] s'; cbn; [done | apply Hstr].
           ++ intros [|i] e'; cbn; [by intros [= ->] | apply Hel].
        -- by rewrite IH.
      * rewrite (bool_decide_eq_false_2 _ Htag).
        by rewrite bool_decide_eq_true_2.
Qed.

End ReactBridgeFacts.

Module FixieHookFacts.
Import FixieHook.

Lemma prefix_empty (s : string) : String.prefix EmptyString s = true.
Proof. by destruct s. Qed.

(** What [startsWith] accepts, [slice] completes. *)
Lemma prefix_slice (a b : string) :
  String.prefix a b = true → a +:+ string_slice (String.length a) b = b.
Proof.
  revert b. induction a as [|c a IH]; intros b; [done|].
  destruct b as [|c' b]; cbn [String.prefix]; [done|].
  destruct (Ascii.ascii_dec c c') as [->|]; [|done]. intros Hprefix.
  change (String c' a +:+ ?x) with (String c' (a +:+ x)).
  cbn [String.length string_slice]. by rewrite IH.
Qed.

Lemma prefix_nonempty (a b : string) :
  is_empty_string a = false → String.prefix a b = true → is_empty_string b = false.
Proof. destruct a, b; done. Qed.

Lemma append_empty_r (s : string) : s +:+ EmptyString = s.
Proof.
  induction s as [|c s IH]; [done|].
  change (String c s +:+ EmptyString) with (String c (s +:+ EmptyString)).
  by rewrite IH.
Qed.

Lemma append_associative (a b c : string) : (a +:+ b) +:+ c = a +:+ (b +:+ c).
Proof.
  induction a as [|x a IH]; [done|].
  change ((String x a +:+ b) +:+ c) with (String x ((a +:+ b) +:+ c)).
  by rewrite IH.
Qed.

Lemma concat_strings_app (l1 l2 : list string) :
  concat_strings (l1 ++ l2) = concat_strings l1 +:+ concat_strings l2.
Proof.
  induction l1 as [|s l1 IH]; [done|].
  cbn [app concat_strings fold_right]. fold (concat_strings (l1 ++ l2)).
  fold (concat_strings l1). rewrite IH. by rewrite append_associative.
Qed.

(** One streaming change: the tokens sent complete the last seen message
    to the new content. *)
Lemma on_change_streams (requested : option ModelRequestedState) (refs : Refs)
    (id content : string) (change : DocChange) :
  requested ≠ Some requested_stop →
  streams id content change →
  String.prefix (lastSeenMostRecentAgentTextMessage refs) content = true →
  (lastTurnForWhichHandleNewTokensWasCalled refs = Some id →
   is_empty_string (lastSeenMostRecentAgentTextMessage refs) = false) →
  let refs' := on_change requested refs change in
  ∃ new,
    newTokens refs' = newTokens refs ++ new
    ∧ deltaCheckpoints refs' = deltaCheckpoints refs ++ new
    ∧ lastSeenMostRecentAgentTextMessage refs +:+ concat_strings new = content
    ∧ lastSeenMostRecentAgentTextMessage refs' = content
    ∧ (lastTurnForWhichHandleNewTokensWasCalled refs' = Some id →
       is_empty_string content = false).
Proof.
  intros Hreq (Htype & Hid & Hrole & Hstate & Htext) Hprefix Hinv refs'.
  subst refs'. unfold on_change. rewrite Htype, Hrole, Htext, Hid.
  assert (Hopen : (match turn_state (change_doc change) with
                   | state_in_progress | state_done => true
                   | _ => false
                   end)
                  && negb (match requested with
                           | Some requested_stop => true
                           | _ => false
                           end) = true).
  { destruct Hstate as [-> | ->]; by destruct requested as [[]|]. }
  rewrite Hopen. clear Hopen.
  destruct refs as [last turn tokens checkpoints]. cbn in *.
  rewrite Hprefix, andb_true_r.
  destruct (is_empty_string last) eqn:Hlast; cbn [negb andb].
  - destruct last; [|done].
    rewrite bool_decide_eq_false_2.
    2:{ intros Hturn. by specialize (Hinv Hturn). }
    destruct (is_empty_string content) eqn:Hcontent; cbn [negb].
    + destruct content; [|done]. exists []. cbn. rewrite !app_nil_r.
      by repeat split.
    + exists [content]. cbn. rewrite append_empty_r. by repeat split.
  - pose proof (prefix_slice _ _ Hprefix) as Hslice.
    pose proof (prefix_nonempty _ _ Hlast Hprefix) as Hcontent.
    destruct (is_empty_string (string_slice (String.length last) content)) eqn:Hpart;
      cbn [negb].
    + exists []. cbn. rewrite !app_nil_r.
      destruct (string_slice (String.length last) content); [|done].
      by repeat split.
    + eexists [_]. cbn. rewrite append_empty_r. by repeat split.
Qed.

Lemma on_changes_stream (requested : option ModelRequestedState) (id : string)
    (contents : list string) (changes : list DocChange) (refs : Refs) :
  requested ≠ Some requested_stop →
  Forall2 (streams id) contents changes →
  growing (lastSeenMostRecentAgentTextMessage refs) contents →
  (lastTurnForWhichHandleNewTokensWasCalled refs = Some id →
   is_empty_string (lastSeenMostRecentAgentTextMessage refs) = false) →
  let refs' := on_changes requested refs changes in
  ∃ new,
    newTokens refs' = newTokens refs ++ new
    ∧ deltaCheckpoints refs' = deltaCheckpoints refs ++ new
    ∧ lastSeenMostRecentAgentTextMessage refs +:+ concat_strings new
      = lastSeenMostRecentAgentTextMessage refs'
    ∧ lastSeenMostRecentAgentTextMessage refs'
      = fold_left (fun _ content => content) contents
          (lastSeenMostRecentAgentTextMessage refs).
Proof.
  intros Hreq Hstreams. revert refs.
  induction Hstreams as [|content change contents changes Hchange _ IH];
    intros refs Hgrow Hinv.
  - exists []. cbn. rewrite !app_nil_r, append_empty_r. by repeat split.
  - destruct Hgrow as [Hprefix Hgrow].
    destruct (on_change_streams requested refs id content change
                Hreq Hchange Hprefix Hinv)
      as (new1 & Htok1 & Hcp1 & Hcat1 & Hlast1 & Hinv1).
    cbn [on_changes fold_left].
    fold (on_changes requested (on_change requested refs change) changes).
    destruct (IH (on_change requested refs change))
      as (new2 & Htok2 & Hcp2 & Hcat2 & Hlast2).
    { by rewrite Hlast1. }
    { by rewrite Hlast1. }
    exists (new1 ++ new2).
    rewrite Htok2, Htok1, Hcp2, Hcp1, <- !app_assoc.
    repeat split; try done.
    + rewrite concat_strings_app, <- append_associative, Hcat1.
      by rewrite <- Hcat2, Hlast1.
    + by rewrite Hlast2, Hlast1.
Qed.

(** While the text of the assistant's message only grows, the tokens
    handed to [onNewTokens] are its increments: starting with nothing seen
    (and no token sent yet for this turn), after any number of updates the
    tokens sent, joined, are the message as last seen, which is the content
    of the last update. *)
Theorem newTokens_reassemble (requested : option ModelRequestedState) (id : string)
    (contents : list string) (final : string) (changes : list DocChange)
    (refs : Refs) :
  requested ≠ Some requested_stop →
  lastSeenMostRecentAgentTextMessage refs = EmptyString →
  lastTurnForWhichHandleNewTokensWasCalled refs ≠ Some id →
  Forall2 (streams id) (contents ++ [final]) changes →
  growing EmptyString (contents ++ [final]) →
  let refs' := on_changes requested refs changes in
  ∃ new,
    newTokens refs' = newTokens refs ++ new
    ∧ deltaCheckpoints refs' = deltaCheckpoints refs ++ new
    ∧ concat_strings new = final
    ∧ lastSeenMostRecentAgentTextMessage refs' = final.
Proof.
  intros Hreq Hlast Hturn Hstreams Hgrow refs'. subst refs'.
  destruct (on_changes_stream requested id (contents ++ [final]) changes refs)
    as (new & Htok & Hcp & Hcat & Hfinal); try done.
  { by rewrite Hlast. }
  rewrite fold_left_app in Hfinal. cbn in Hfinal.
  exists new. rewrite Hlast in Hcat.
  change (EmptyString +:+ concat_strings new) with (concat_strings new) in Hcat.
  repeat split; try done. by rewrite Hcat.
Qed.

Lemma on_change_stuck (requested : option ModelRequestedState) (refs : Refs)
    (change : DocChange) :
  lastSeenMostRecentAgentTextMessage refs = EmptyString →
  lastTurnForWhichHandleNewTokensWasCalled refs = Some (turn_id (change_doc change)) →
  on_change requested refs change = refs.
Proof.
  intros Hlast Hturn. unfold on_change.
  destruct (change_type change); try done.
  destruct (turn_role (change_doc change)); [done|].
  destruct (_ && _); [|done].
  destruct (findLast_text _); [|done].
  rewrite Hlast, Hturn. cbn. by rewrite bool_decide_eq_true_2.
Qed.

(** [sendMessage], [regenerate] and [stop] clear the last seen message but
    not the turn for which tokens were last sent.  If that turn is updated
    afterwards (its text regenerated, say), nothing is done: whatever the
    updates hold, no token is sent for it and the refs stay as they are. *)
Theorem cleared_turn_sends_nothing (requested : option ModelRequestedState)
    (refs : Refs) (id : string) (changes : list DocChange) :
  lastTurnForWhichHandleNewTokensWasCalled refs = Some id →
  Forall (fun change => turn_id (change_doc change) = id) changes →
  on_changes requested (clear_lastSeen refs) changes = clear_lastSeen refs
  ∧ newTokens (on_changes requested (clear_lastSeen refs) changes) = newTokens refs.
Proof.
  intros Hturn Hchanges.
  assert (Hfix : on_changes requested (clear_lastSeen refs) changes
                 = clear_lastSeen refs).
  { unfold on_changes.
    induction Hchanges as [|change changes Hid _ IH]; [done|].
    cbn [fold_left]. rewrite on_change_stuck; [exact IH | done |].
    cbn. by rewrite Hid. }
  split; [exact Hfix | by rewrite Hfix].
Qed.

End FixieHookFacts.

Module InlineScopeFacts.
Import Js InlineScope JsFacts.

Lemma Scope_flat `{ScopeEnv} (props_children : Node) :
  Scope props_children = fold_left Scope_reducer (flat_node props_children) [].
Proof.
  unfold Scope. destruct props_children; try reflexivity;
    unfold flat_infinity; cbn; by rewrite ?app_nil_r.
Qed.

Lemma Scope_reducer_plain `{ScopeEnv} (collected : list Node) (current : Node) :
  is_array current = false → is_Inline current = false →
  Scope_reducer collected current = collected ++ [current].
Proof.
  intros Harr Hinl. destruct current; try done.
  unfold Scope_reducer. by rewrite Hinl.
Qed.

Lemma fold_Scope_reducer_plain `{ScopeEnv} (l collected : list Node) :
  Forall (fun n => is_array n = false) l →
  Forall (fun n => is_Inline n = false) l →
  fold_left Scope_reducer l collected = collected ++ l.
Proof.
  intros Harr. revert collected.
  induction Harr as [|n l Hn _ IH]; intros collected Hinl.
  - by rewrite app_nil_r.
  - apply List.Forall_cons_iff in Hinl as [Hn' Hinl]. cbn [fold_left].
    rewrite Scope_reducer_plain, IH by done. by rewrite <- app_assoc.
Qed.

(** Without an [Inline] element among its (deeply flattened) children,
    [Scope] returns these children as they are. *)
Theorem Scope_without_Inline `{ScopeEnv} (props_children : Node) :
  Forall (fun n => is_Inline n = false) (flat_node props_children) →
  Scope props_children = flat_node props_children.
Proof.
  intros Hinl. rewrite Scope_flat.
  rewrite fold_Scope_reducer_plain; [done | apply flat_node_no_array | done].
Qed.

(** At an [Inline] element, [Scope] folds everything it has collected so
    far into one memoized node and calls the function of the element with
    it: the result is that memoized node, what the function returned, and
    the children after the element (up to the next [Inline], which does the
    same again). *)
Theorem Scope_at_Inline `{ScopeEnv} (props_children : Node)
    (before after : list Node) (e : Element) :
  flat_node props_children = before ++ NElement e :: after →
  is_Inline (NElement e) = true →
  Forall (fun n => is_Inline n = false) after →
  let memoized := memo (NArray (Scope (NArray before))) in
  Scope props_children
  = [memoized;
     call_function (js_get (element_props e) (KString "children")) memoized]
    ++ after.
Proof.
  intros Hflat Hinl Hafter memoized. subst memoized.
  pose proof (flat_node_no_array props_children) as Harr.
  rewrite Hflat in Harr. apply Forall_app in Harr as [Hbefore Harr].
  apply List.Forall_cons_iff in Harr as [_ Harr].
  rewrite Scope_flat, Hflat, fold_left_app. cbn [fold_left].
  rewrite fold_Scope_reducer_plain by done.
  unfold Scope_reducer at 1. rewrite Hinl.
  rewrite Scope_flat. cbn [flat_node].
  change (List.flat_map flat_node before) with (flat_infinity before).
  by rewrite flat_infinity_flat.
Qed.

End InlineScopeFacts.

Module DebugStepFacts.
Import DebugStep.
Section Elements.
Context {E : Type} `{EqDecision E}.

Lemma shouldStop_all_chosen (target : E) (elements : list E) :
  shouldStop_all (Some target) elements
  = (Some target, map (fun element => bool_decide (element ≠ target)) elements).
Proof.
  induction elements as [|element rest IH]; [done|].
  cbn [shouldStop_all shouldStop map]. rewrite IH. f_equal. f_equal.
  apply bool_decide_ext. split; congruence.
Qed.

(** In one pass [shouldStop] lets through the first element it is asked
    about, and that element again whenever it is asked about it, and stops
    every other element; the pass has rendered something exactly when
    [shouldStop] was called at all. *)
Theorem shouldStop_first_only (elements : list E) :
  match elements with
  | [] =>
      shouldStop_all None elements = (None, [])
      ∧ didRenderSomething (shouldStop_all None elements).1 = false
  | first :: rest =>
      shouldStop_all None elements
      = (Some first,
         false :: map (fun element => bool_decide (element ≠ first)) rest)
      ∧ didRenderSomething (shouldStop_all None elements).1 = true
  end.
Proof.
  destruct elements as [|first rest]; [done|].
  cbn [shouldStop_all shouldStop]. rewrite shouldStop_all_chosen.
  assert (Hfirst : bool_decide (Some first ≠ Some first) = false).
  { apply bool_decide_eq_false_2. intros Hne. by apply Hne. }
  rewrite Hfirst. split; [done|].
  cbn [fst]. unfold didRenderSomething. by apply bool_decide_eq_true_2.
Qed.

End Elements.
End DebugStepFacts.

Module MoreChecks.
Import Stdlib.Strings.Ascii.
Import Js Elements Replace Traverse Fork Samples Lineage.
Import Cli Sidekick Inspector ReactBridge FixieHook InlineScope MoreSamples.
Import LineageFacts CompositionFacts CliFacts SidekickFacts InspectorFacts.
Import FixieHookFacts InlineScopeFacts.

Example env_option_samples :
  env_option "A=b=c" None = {[ "A" := "b" ]}
  ∧ env_option "=x" None = {[ EmptyString := "x" ]}
  ∧ env_options ["A=1"; "B"; "A=2"] = Some {[ "A" := "2"; "B" := EmptyString ]}
  ∧ split_on "="%char EmptyString = [EmptyString].
Proof. vm_compute. done. Qed.

Example Sidekick_samples :
  Sidekick sidekick_with_tools = Normal sidekick_with_tools_element
  ∧ Sidekick sidekick_claude_with_tools
    = Throw {| err_name := "Error";
               message := "Model claude-2 does not support tools. Only gpt-4 and gpt-3.5 support tools." |}.
Proof. vm_compute. done. Qed.

Example Scope_sample :
  @Scope sample_scope_env
    (NArray [NString "a"; NArray [NString "b"]; NElement inline_element; NString "z"])
  = [NArray [NString "memo"; NArray [NString "a"; NString "b"]];
     NArray [NString "called";
             NArray [NString "memo"; NArray [NString "a"; NString "b"]]];
     NString "z"].
Proof. reflexivity. Qed.

Lemma traverse_yields_lineage_witness :
  In (sample_leaf, [sample_root]) (traverse sample_root options_descend)
  ∧ ∃ p, [sample_root] = path_or_empty options_descend ++ p
         ∧ descends sample_root p sample_leaf
         ∧ Forall (fun a => optional_call (opt_descend options_descend) a = true) p.
Proof.
  assert (Hin : In (sample_leaf, [sample_root])
                  (traverse sample_root options_descend))
    by (cbn; right; left; reflexivity).
  split; [exact Hin|].
  exact (proj2 (traverse_yields_lineage _ _ _ _ Hin)).
Defined.

Lemma traverse_full_descent_witness :
  (∀ e, optional_call (opt_descend options_descend) e = true)
  ∧ (∀ e, optional_call (opt_yieldPost options_descend) e = false)
  ∧ map fst (traverse sample_root options_descend)
    = List.filter (optional_call (opt_yield options_descend))
        (elements_preorder sample_root).
Proof.
  assert (Hdescend : ∀ e, optional_call (opt_descend options_descend) e = true)
    by (intros e; reflexivity).
  assert (Hpost : ∀ e, optional_call (opt_yieldPost options_descend) e = false)
    by (intros e; reflexivity).
  split; [exact Hdescend|]. split; [exact Hpost|].
  exact (proj1 (traverse_full_descent sample_root options_descend Hdescend) Hpost).
Defined.

Lemma replaceSubtree_traverse_path_witness :
  opt_path options_descend = None
  ∧ In (sample_leaf, [sample_root]) (traverse sample_root options_descend)
  ∧ [sample_root] ≠ []
  ∧ Forall (fun node => strict_eq node sample_root = false)
      (asyncChildNodes sample_root)
  ∧ asyncChildNodes
      (replaceSubtree sample_root [sample_root] (pure_replacer upper) 10).1
    = asyncChildNodes sample_root.
Proof.
  assert (Hin : In (sample_leaf, [sample_root])
                  (traverse sample_root options_descend))
    by (cbn; right; left; reflexivity).
  assert (Hpath : [sample_root] ≠ []) by discriminate.
  assert (Hself : Forall (fun node => strict_eq node sample_root = false)
                    (asyncChildNodes sample_root))
    by (repeat constructor).
  split; [reflexivity|]. split; [exact Hin|]. split; [exact Hpath|].
  split; [exact Hself|].
  rewrite (replaceSubtree_traverse_path sample_root options_descend sample_leaf
             [sample_root] (pure_replacer upper) 10 eq_refl Hin Hpath Hself).
  reflexivity.
Defined.

Lemma createElement_array_children_witness :
  2 ≤ length [NString "a"; NString "b"]
  ∧ @invoke sample_runtime
      (createElement (TIntrinsic (IString "p")) None [NArray [NString "a"; NString "b"]])
      sample_context 0
    = @invoke sample_runtime
        (createElement (TIntrinsic (IString "p")) None [NString "a"; NString "b"])
        sample_context 0.
Proof.
  assert (Hlen : 2 ≤ length [NString "a"; NString "b"]) by (cbn; lia).
  split; [exact Hlen|].
  exact (proj2 (@createElement_array_children sample_runtime
                  (TIntrinsic (IString "p")) None [NString "a"; NString "b"]
                  sample_context 0 Hlen)).
Defined.

Lemma env_option_assigns_witness :
  has_char "="%char "KEY" = false
  ∧ has_char "="%char "value" = false
  ∧ env_option "KEY=value" None = <[ "KEY" := "value" ]> ∅.
Proof.
  split; [reflexivity|]. split; [reflexivity|].
  exact (proj1 (env_option_assigns "KEY" "value" None eq_refl eq_refl)).
Defined.

Lemma env_option_cuts_value_witness :
  has_char "="%char "URL" = false
  ∧ has_char "="%char "http://host/?a" = false
  ∧ env_option "URL=http://host/?a=1" None = <[ "URL" := "http://host/?a" ]> ∅.
Proof.
  split; [reflexivity|]. split; [reflexivity|].
  exact (env_option_cuts_value "URL" "http://host/?a" "1" None eq_refl eq_refl).
Defined.

Lemma deploy_env_of_options_witness :
  has_char "="%char "FIXIE_API_URL" = false
  ∧ has_char "="%char "http://localhost" = false
  ∧ default ∅ (env_options (["A=1"] ++ ["FIXIE_API_URL=http://localhost"]))
      !! "FIXIE_API_URL" = Some "http://localhost".
Proof.
  split; [reflexivity|]. split; [reflexivity|].
  exact (proj1 (deploy_env_of_options ["A=1"] "FIXIE_API_URL" "http://localhost"
                  "https://app.fixie.ai" eq_refl eq_refl)).
Defined.

Lemma Sidekick_guard_witness :
  Sidekick sidekick_claude_with_tools = Throw (tools_error (Some "claude-2"))
  ∧ ∃ m, model sidekick_claude_with_tools = Some m
         ∧ is_Some (tools sidekick_claude_with_tools)
         ∧ String.prefix "gpt-4" m = false
         ∧ String.prefix "gpt-3.5" m = false
         ∧ message (tools_error (Some "claude-2"))
           = "Model " +:+ m
             +:+ " does not support tools. Only gpt-4 and gpt-3.5 support tools.".
Proof.
  assert (Hthrow : Sidekick sidekick_claude_with_tools
                   = Throw (tools_error (Some "claude-2"))) by reflexivity.
  split; [exact Hthrow|].
  exact (proj2 (proj2 (Sidekick_guard sidekick_claude_with_tools)) _ Hthrow).
Defined.

Lemma Sidekick_tools_provider_witness :
  Sidekick sidekick_with_tools = Normal sidekick_with_tools_element
  ∧ (is_Some (UseTools_tools sidekick_with_tools_element) →
     provider (ModelProvider NNull (ModelProvider_model sidekick_with_tools_element))
     = OpenAI).
Proof.
  assert (Hel : Sidekick sidekick_with_tools = Normal sidekick_with_tools_element)
    by reflexivity.
  split; [exact Hel|].
  exact (proj1 (proj2 (Sidekick_tools_provider sidekick_with_tools
                         sidekick_with_tools_element NNull Hel))).
Defined.

Lemma inspector_index_valid_witness :
  2 ≤ length (["step 0"; "step 1"], @None Z).1
  ∧ index_valid (["step 0"; "step 1"], None)
  ∧ index_valid
      (inspector_run (["step 0"; "step 1"], None)
         [KeyPressed left_key; StepPushed "step 2"; KeyPressed right_key;
          KeyPressed right_key]).
Proof.
  assert (Hlen : 2 ≤ length (["step 0"; "step 1"], @None Z).1) by (cbn; lia).
  assert (Hvalid : index_valid (["step 0"; "step 1"], None)) by exact I.
  split; [exact Hlen|]. split; [exact Hvalid|].
  exact (proj1 (proj2 (inspector_index_valid _ _ Hlen Hvalid))).
Defined.

Lemma leftArrow_first_underflows_witness :
  length ["step 0"] < 2
  ∧ useInput_handler (Z.of_nat (length ["step 0"])) left_key None = Some (-1)%Z
  ∧ code_shown ["step 0"] (Some (-1)%Z) = EmptyString.
Proof.
  assert (Hlen : length ["step 0"] < 2) by (cbn; lia).
  split; [exact Hlen|].
  destruct (leftArrow_first_underflows ["step 0"] Hlen) as (Hindex & _ & _ & Hcode).
  split; [exact Hindex | exact Hcode].
Defined.

Lemma newTokens_reassemble_witness :
  Forall2 (streams "turn-1") (["He"] ++ ["Hello"])
    [streaming_change state_in_progress "He"; streaming_change state_done "Hello"]
  ∧ growing EmptyString (["He"] ++ ["Hello"])
  ∧ ∃ new,
      newTokens
        (on_changes None initial_refs
           [streaming_change state_in_progress "He";
            streaming_change state_done "Hello"])
      = newTokens initial_refs ++ new
      ∧ concat_strings new = "Hello".
Proof.
  assert (Hstreams : Forall2 (streams "turn-1") (["He"] ++ ["Hello"])
            [streaming_change state_in_progress "He";
             streaming_change state_done "Hello"]).
  { constructor; [|constructor; [|constructor]];
      unfold streams; cbn; repeat split; auto. }
  assert (Hgrow : growing EmptyString (["He"] ++ ["Hello"])) by (cbn; auto).
  split; [exact Hstreams|]. split; [exact Hgrow|].
  destruct (newTokens_reassemble None "turn-1" ["He"] "Hello"
              [streaming_change state_in_progress "He";
               streaming_change state_done "Hello"] initial_refs)
    as (new & Htok & _ & Hcat & _);
    [discriminate | reflexivity | discriminate | exact Hstreams | exact Hgrow |].
  exists new. split; [exact Htok | exact Hcat].
Defined.

Lemma cleared_turn_sends_nothing_witness :
  lastTurnForWhichHandleNewTokensWasCalled refs_after_hello = Some "turn-1"
  ∧ Forall (fun change => turn_id (change_doc change) = "turn-1")
      [streaming_change state_in_progress "Bon"; streaming_change state_done "Bonjour"]
  ∧ newTokens
      (on_changes None (clear_lastSeen refs_after_hello)
         [streaming_change state_in_progress "Bon";
          streaming_change state_done "Bonjour"])
    = ["He"; "llo"].
Proof.
  assert (Hall : Forall (fun change => turn_id (change_doc change) = "turn-1")
            [streaming_change state_in_progress "Bon";
             streaming_change state_done "Bonjour"])
    by (repeat constructor).
  split; [reflexivity|]. split; [exact Hall|].
  exact (proj2 (cleared_turn_sends_nothing None refs_after_hello "turn-1" _
                  eq_refl Hall)).
Defined.

Lemma Scope_without_Inline_witness :
  Forall (fun n => @is_Inline sample_scope_env n = false)
    (flat_node (NArray [NString "a"; NArray [NString "b"; NNull]]))
  ∧ @Scope sample_scope_env (NArray [NString "a"; NArray [NString "b"; NNull]])
    = [NString "a"; NString "b"; NNull].
Proof.
  assert (Hplain : Forall (fun n => @is_Inline sample_scope_env n = false)
            (flat_node (NArray [NString "a"; NArray [NString "b"; NNull]])))
    by (repeat constructor).
  split; [exact Hplain|].
  exact (@Scope_without_Inline sample_scope_env _ Hplain).
Defined.

Lemma Scope_at_Inline_witness :
  flat_node (NArray [NString "a"; NElement inline_element; NString "z"])
  = [NString "a"] ++ NElement inline_element :: [NString "z"]
  ∧ @is_Inline sample_scope_env (NElement inline_element) = true
  ∧ Forall (fun n => @is_Inline sample_scope_env n = false) [NString "z"]
  ∧ @Scope sample_scope_env
      (NArray [NString "a"; NElement inline_element; NString "z"])
    = [@memo sample_scope_env (NArray (@Scope sample_scope_env (NArray [NString "a"])));
       @call_function sample_scope_env
         (js_get (element_props inline_element) (KString "children"))
         (@memo sample_scope_env
            (NArray (@Scope sample_scope_env (NArray [NString "a"]))))]
      ++ [NString "z"].
Proof.
  assert (Hafter : Forall (fun n => @is_Inline sample_scope_env n = false)
                     [NString "z"]) by (repeat constructor).
  split; [reflexivity|]. split; [reflexivity|]. split; [exact Hafter|].
  exact (@Scope_at_Inline sample_scope_env
           (NArray [NString "a"; NElement inline_element; NString "z"])
           [NString "a"] [NString "z"] inline_element eq_refl eq_refl Hafter).
Defined.

End MoreChecks.
